(** * seekret-source-git: the git source of the seekret scanner

    A shallow embedding of [load_source.go] (package [sourcegit]) and the
    properties of its extraction pipeline: the locator normaliser
    [normalizeGitUri], the repository resolver [openGitRepo], the commit
    history extractor [objectsFromCommit], the staged change extractor
    [objectsFromStagedFiles] and the orchestrator [LoadObjects].

    The version-control engine (git2go over libgit2) and the [models]
    package of seekret are outside of the package; the engine is an
    interface ([GitEngine]) with one reference instance, the object model
    follows the data model of the specification. *)

From Stdlib Require Import ZArith List String Ascii DecimalString DecimalZ.
From stdpp Require Import base decidable option list gmap strings.

Set Warnings "-register-all".

Local Open Scope string_scope.
Local Open Scope Z_scope.
Local Open Scope list_scope.

(** ** Go values used by the package *)

(** A Go [error] value: [None] is [nil]. *)
Definition error := option string.

(** A [[]byte]. *)
Definition bytes := list Byte.byte.

(** The conversion [[]byte(s)]. *)
Definition bytes_of_string (s : string) : bytes := list_byte_of_string s.

(** The result of a library call returning a pointer and an [error]:
    git2go returns a nil pointer together with every non-nil error. *)
Inductive Result (A : Type) : Type :=
| Ok (a : A)
| Err (e : string).
Arguments Ok {A} a.
Arguments Err {A} e.

(** A Go call either returns or panics (nil dereference, [panic(err)]). *)
Inductive Outcome (A : Type) : Type :=
| Returns (a : A)
| Panics.
Arguments Returns {A} a.
Arguments Panics {A}.

Definition obind {A B} (m : Outcome A) (f : A -> Outcome B) : Outcome B :=
  match m with
  | Returns a => f a
  | Panics => Panics
  end.

Notation "'let!' x ':=' m 'in' k" := (obind m (fun x => k))
  (at level 10, x pattern, m at level 100, k at level 200).

(** ** Regular expressions, as package [regexp] matches them

    Only the constructs of [gitregexp] are present.  The text is matched
    rune by rune: [runes] splits a string as [utf8.DecodeRuneInString]
    does (an invalid byte is one rune of width one). *)

Module Regexp.

Definition rune := list ascii.

Definition byte_in (lo hi : N) (b : ascii) : bool :=
  ((lo <=? N_of_ascii b) && (N_of_ascii b <=? hi))%N.

Definition cont (b : ascii) : bool := byte_in 128 191 b.

(** Width of the first rune of [b :: t] (table [first] and [acceptRanges]
    of package [unicode/utf8]). *)
Definition rune_width (b : ascii) (t : list ascii) : nat :=
  let two lo hi :=
    match t with
    | b1 :: _ => if byte_in lo hi b1 then 2%nat else 1%nat
    | _ => 1%nat
    end in
  let three lo hi :=
    match t with
    | b1 :: b2 :: _ => if byte_in lo hi b1 && cont b2 then 3%nat else 1%nat
    | _ => 1%nat
    end in
  let four lo hi :=
    match t with
    | b1 :: b2 :: b3 :: _ =>
        if byte_in lo hi b1 && cont b2 && cont b3 then 4%nat else 1%nat
    | _ => 1%nat
    end in
  if byte_in 0 127 b then 1%nat
  else if byte_in 194 223 b then two 128%N 191%N
  else if byte_in 224 224 b then three 160%N 191%N
  else if byte_in 225 236 b then three 128%N 191%N
  else if byte_in 237 237 b then three 128%N 159%N
  else if byte_in 238 239 b then three 128%N 191%N
  else if byte_in 240 240 b then four 144%N 191%N
  else if byte_in 241 243 b then four 128%N 191%N
  else if byte_in 244 244 b then four 128%N 143%N
  else 1%nat.

Fixpoint runes_fuel (fuel : nat) (s : list ascii) : list rune :=
  match fuel, s with
  | S fuel', b :: t =>
      let w := rune_width b t in
      take w s :: runes_fuel fuel' (drop w s)
  | _, _ => []
  end.

Definition runes (s : string) : list rune :=
  let l := list_ascii_of_string s in runes_fuel (length l) l.

Definition text (rs : list rune) : string :=
  string_of_list_ascii (concat rs).

(** Character classes: [.] (any rune but a newline) and [[^...]]. *)
Inductive charset : Type :=
| AnyChar
| NotIn (cs : string).

Definition is_char (c : ascii) (r : rune) : bool :=
  match r with
  | [b] => Ascii.eqb b c
  | _ => false
  end.

Definition charset_mem (c : charset) (r : rune) : bool :=
  match c with
  | AnyChar => negb (is_char "010" r)
  | NotIn cs => negb (existsb (fun x => is_char x r) (list_ascii_of_string cs))
  end.

Inductive regex : Type :=
| Bol                          (* ^ *)
| Eol                          (* $ *)
| Lit (s : string)             (* literal text *)
| One (c : charset)            (* one rune of a class *)
| Plus (c : charset)           (* c+, greedy *)
| Opt (r : regex)              (* r?, greedy *)
| Alt (r1 r2 : regex)          (* r1|r2, the left one preferred *)
| Seq (r1 r2 : regex)
| Group (i : nat) (r : regex)  (* capturing group number i *).

(** The submatches: index 0 is the whole match, index [i] is group [i];
    a group that took no part in the match is the empty string. *)
Definition captures := list string.

Definition kont := nat -> list rune -> captures -> option captures.

Fixpoint strip_lit (l : list ascii) (s : list rune) : option (list rune) :=
  match l with
  | [] => Some s
  | c :: l' =>
      match s with
      | r :: s' => if is_char c r then strip_lit l' s' else None
      | [] => None
      end
  end.

Fixpoint plus_match (c : charset) (pos : nat) (s : list rune)
    (caps : captures) (k : kont) : option captures :=
  match s with
  | [] => None
  | r :: t =>
      if charset_mem c r then
        match plus_match c (S pos) t caps k with
        | Some res => Some res
        | None => k (S pos) t caps
        end
      else None
  end.

(** Backtracking search in the order of preference of the pattern: the
    first match found is the leftmost-first match [regexp] reports.
    [pos] is the number of runes before [s] in the text. *)
Fixpoint rmatch (r : regex) (pos : nat) (s : list rune) (caps : captures)
    (k : kont) : option captures :=
  match r with
  | Bol => if Nat.eqb pos 0 then k pos s caps else None
  | Eol => match s with [] => k pos s caps | _ :: _ => None end
  | Lit l =>
      match strip_lit (list_ascii_of_string l) s with
      | Some t => k (pos + String.length l)%nat t caps
      | None => None
      end
  | One c =>
      match s with
      | x :: t => if charset_mem c x then k (S pos) t caps else None
      | [] => None
      end
  | Plus c => plus_match c pos s caps k
  | Opt r1 =>
      match rmatch r1 pos s caps k with
      | Some res => Some res
      | None => k pos s caps
      end
  | Alt r1 r2 =>
      match rmatch r1 pos s caps k with
      | Some res => Some res
      | None => rmatch r2 pos s caps k
      end
  | Seq r1 r2 =>
      rmatch r1 pos s caps (fun pos' s' caps' => rmatch r2 pos' s' caps' k)
  | Group i r1 =>
      rmatch r1 pos s caps
        (fun pos' s' caps' => k pos' s' (<[i := text (take (pos' - pos) s)]> caps'))
  end.

Fixpoint groups (r : regex) : nat :=
  match r with
  | Opt r1 => groups r1
  | Alt r1 r2 | Seq r1 r2 => Nat.max (groups r1) (groups r2)
  | Group i r1 => Nat.max i (groups r1)
  | _ => 0%nat
  end.

Fixpoint find_from (re : regex) (pos : nat) (s : list rune) : captures :=
  match
    rmatch re pos s (replicate (S (groups re)) "")
      (fun pos' _ caps => Some (<[0%nat := text (take (pos' - pos) s)]> caps))
  with
  | Some caps => caps
  | None =>
      match s with
      | [] => []
      | _ :: t => find_from re (S pos) t
      end
  end.

(** [re.FindStringSubmatch(s)]: nil when the text has no match. *)
Definition FindStringSubmatch (re : regex) (s : string) : captures :=
  find_from re 0 (runes s).

End Regexp.

Import Regexp.

(** ** The locator normaliser *)

(** [^(?:(https?|git|ssh)://|(git@))([^:|/]+)(?:/|:)([^/]+)/([^/\.]+)(.git)$] *)
Definition gitregexp : regex :=
  Seq Bol
 (Seq (Alt (Seq (Group 1 (Alt (Seq (Lit "http") (Opt (Lit "s")))
                         (Alt (Lit "git") (Lit "ssh"))))
                (Lit "://"))
           (Group 2 (Lit "git@")))
 (Seq (Group 3 (Plus (NotIn ":|/")))
 (Seq (Alt (Lit "/") (Lit ":"))
 (Seq (Group 4 (Plus (NotIn "/")))
 (Seq (Lit "/")
 (Seq (Group 5 (Plus (NotIn "/.")))
 (Seq (Group 6 (Seq (One AnyChar) (Lit "git")))
      Eol))))))).

Definition normalizeGitUri (source : string) : string * bool :=
  let u := FindStringSubmatch gitregexp source in
  if Nat.eqb (length u) 0 then (source, false)
  else
    let proto :=
      if String.eqb (u !!! 1%nat) "http" || String.eqb (u !!! 1%nat) "https"
         || String.eqb (u !!! 1%nat) "ssh" || String.eqb (u !!! 1%nat) "git"
      then u !!! 1%nat
      else "ssh" in
    let gitUri :=
      proto +:+ "://" +:+ u !!! 2%nat +:+ u !!! 3%nat +:+ "/" +:+ u !!! 4%nat
            +:+ "/" +:+ u !!! 5%nat +:+ u !!! 6%nat in
    (gitUri, true).

(** ** The parts of the pattern and of a locator *)

Definition ascii_byte (c : ascii) : bool := byte_in 0 127 c.

(** The runes of a list of bytes. *)
Definition runes_l (l : list ascii) : list rune := runes_fuel (length l) l.

Definition rune_of (c : ascii) : rune := [c].

Definition dotgit : list rune :=
  [["."%char]; ["g"%char]; ["i"%char]; ["t"%char]].

Definition suffix_re : regex :=
  Seq (Group 6 (Seq (One AnyChar) (Lit "git"))) Eol.

Definition repo_re : regex := Seq (Group 5 (Plus (NotIn "/."))) suffix_re.

Definition org_re : regex :=
  Seq (Group 4 (Plus (NotIn "/"))) (Seq (Lit "/") repo_re).

Definition tail_re : regex :=
  Seq (Group 3 (Plus (NotIn ":|/"))) (Seq (Alt (Lit "/") (Lit ":")) org_re).

Definition head_re : regex :=
  Alt (Seq (Group 1 (Alt (Seq (Lit "http") (Opt (Lit "s")))
                         (Alt (Lit "git") (Lit "ssh"))))
           (Lit "://"))
      (Group 2 (Lit "git@")).

(** Runes of the class [[^cs]], one at least. *)
Definition in_class (cs : string) (l : list rune) : Prop :=
  l <> [] /\ Forall (fun r => charset_mem (NotIn cs) r = true) l.

(** A part of a locator (host, organisation, repository): not empty and
    free of the bytes of [cs]. *)
Definition part (cs s : string) : bool :=
  negb (String.eqb s "")
  && forallb (fun b => negb (existsb (Ascii.eqb b) (list_ascii_of_string cs)))
       (list_ascii_of_string s).

(** ** Content objects (package [models] of seekret) *)

Record MetadataAttributes : Type := { PrimaryKey : bool }.

Record MetadataData : Type := {
  value : string;
  attr : MetadataAttributes
}.

(** Modelled from the spec: the Content Object of package [models], which
    is not part of this package: an id ([Name]), the type of the source,
    the origin tag ([SubType]), the payload ([Content]) and the metadata,
    a mapping from keys to values with their attribute flag. *)
Record Object : Type := {
  Name : string;
  Type_ : string;
  SubType : string;
  Content : bytes;
  Metadata : gmap string MetadataData
}.

(** Modelled from the spec: [models.NewObject], an object without
    metadata. *)
Definition NewObject (name t st : string) (content : bytes) : Object :=
  {| Name := name; Type_ := t; SubType := st; Content := content;
     Metadata := ∅ |}.

(** Modelled from the spec: [o.SetMetadata(key, value, attr)] on an object
    on which [key] is not set yet. *)
Definition SetMetadata (o : Object) (key val : string)
    (a : MetadataAttributes) : Object :=
  {| Name := Name o; Type_ := Type_ o; SubType := SubType o;
     Content := Content o;
     Metadata := <[key := {| value := val; attr := a |}]> (Metadata o) |}.

(** ** The data of the engine (git2go) *)

(** An object id, as its hexadecimal text ([Oid.String()]). *)
Definition Oid := string.

Inductive ObjectType : Type :=
| ObjectCommit
| ObjectTree
| ObjectBlob
| ObjectTag.

Definition ObjectType_eqb (a b : ObjectType) : bool :=
  match a, b with
  | ObjectCommit, ObjectCommit | ObjectTree, ObjectTree
  | ObjectBlob, ObjectBlob | ObjectTag, ObjectTag => true
  | _, _ => false
  end.

Record TreeEntry : Type := {
  te_Name : string;
  te_Id : Oid;
  te_Type : ObjectType
}.

(** A tree: its entries, each with the entries below it (none unless the
    entry is itself a tree). *)
Inductive TreeNode : Type :=
| TNode (entry : TreeEntry) (children : list TreeNode).

Definition Tree := list TreeNode.

(** [tree.Walk(callback)]: pre-order; the callback gets the path of the
    directory of the entry (empty, or ending in a slash).  A negative
    answer stops the walk, a positive one skips the entries below. *)
Fixpoint walk_node {S : Type} (callback : string -> TreeEntry -> S -> S * Z)
    (base : string) (n : TreeNode) (st : S) : S * bool :=
  match n with
  | TNode e kids =>
      let '(st1, r) := callback base e st in
      if (r <? 0)%Z then (st1, true)
      else if (0 <? r)%Z then (st1, false)
      else
        (fix walk_list (l : list TreeNode) (st : S) : S * bool :=
           match l with
           | [] => (st, false)
           | k :: l' =>
               let '(st2, stop) :=
                 walk_node callback (base +:+ te_Name e +:+ "/") k st in
               if stop then (st2, true) else walk_list l' st2
           end) kids st1
  end.

Fixpoint walk_nodes {S : Type} (callback : string -> TreeEntry -> S -> S * Z)
    (base : string) (l : list TreeNode) (st : S) : S * bool :=
  match l with
  | [] => (st, false)
  | k :: l' =>
      let '(st2, stop) := walk_node callback base k st in
      if stop then (st2, true) else walk_nodes callback base l' st2
  end.

Definition Tree_Walk {S : Type} (callback : string -> TreeEntry -> S -> S * Z)
    (t : Tree) (st : S) : S :=
  fst (walk_nodes callback "" t st).

(** A commit: [commit.Id()], [commit.Message()], the commit time, the
    outcome of [commit.Tree()], and the parent commits. *)
Inductive Commit : Type :=
| MkCommit (id : Oid) (message : string) (time : Z) (tree : Result Tree)
    (parents : list Commit).

Definition commit_Id (c : Commit) : Oid :=
  match c with MkCommit id _ _ _ _ => id end.
Definition commit_Message (c : Commit) : string :=
  match c with MkCommit _ m _ _ _ => m end.
Definition commit_Time (c : Commit) : Z :=
  match c with MkCommit _ _ t _ _ => t end.
Definition commit_Tree (c : Commit) : Result Tree :=
  match c with MkCommit _ _ _ t _ => t end.
Definition commit_Parents (c : Commit) : list Commit :=
  match c with MkCommit _ _ _ _ ps => ps end.

Record IndexEntry : Type := {
  ie_Path : string;
  ie_Id : Oid
}.

Abbreviation Index := (list IndexEntry).

Definition EntryCount (index : Index) : nat := length index.

Definition EntryByIndex (index : Index) (i : nat) : Result IndexEntry :=
  match index !! i with
  | Some e => Ok e
  | None => Err "Index out of Bounds"
  end.

(** [git.Status]: a set of flags; no flag is [git.StatusCurrent]. *)
Definition Status := Z.
Definition StatusCurrent : Status := 0.

Inductive SortType : Type :=
| SortNone
| SortTime.

(** The operations of the engine and of the system this package calls.
    A [RevWalk] is changed in place by the engine; here each operation
    returns the walk it leaves behind.  [walk_Commits w] is the sequence
    [walk.Iterate] runs over: the commits the walk hands out, one after
    the other, and the error that ends the sequence (nil at the regular
    end). *)
Class GitEngine : Type := {
  Repository : Type;
  RevWalk : Type;
  git_OpenRepositoryExtended : string -> Result Repository;
  ioutil_TempDir : Result string;
  git_Clone : string -> string -> Outcome (Result Repository);
  repo_Walk : Repository -> Result RevWalk;
  walk_PushRange : RevWalk -> string -> RevWalk * error;
  walk_PushHead : RevWalk -> RevWalk * error;
  walk_Sorting : RevWalk -> SortType -> RevWalk;
  walk_Commits : RevWalk -> list Commit * error;
  repo_LookupBlob : Repository -> Oid -> Result bytes;
  repo_Index : Repository -> Result Index;
  repo_StatusFile : Repository -> string -> Result Status
}.

(** [walk.Iterate(fun)]: [fun] runs on each commit until it answers false
    or the sequence ends; the error ending the sequence is returned. *)
Fixpoint Iterate {S : Type} (f : Commit -> S -> Outcome (S * bool))
    (commits : list Commit) (last : error) (st : S) : Outcome (S * error) :=
  match commits with
  | [] => Returns (st, last)
  | c :: cs =>
      let! (st', more) := f c st in
      if more : bool then Iterate f cs last st' else Returns (st', None)
  end.

(** The [%d] verb of [fmt.Sprintf]. *)
Definition sprintf_d (n : Z) : string := NilZero.string_of_int (Z.to_int n).

(** ** The package *)

(** The constant [Type]. *)
Definition Type_git : string := "seekret-source-git".

Record SourceGitLoadOptions : Type := {
  CommitFiles : bool;
  CommitMessages : bool;
  StagedFiles : bool;
  CommitCount : Z
}.

(** A value of [seekret.LoadOptions], a [map[string]interface{}]. *)
Inductive GoValue : Type :=
| VBool (b : bool)
| VInt (n : Z)
| VString (s : string)
| VNil.

(** The type assertions [v.(bool)] and [v.(int)] in their two-valued form;
    a key that is not in the map reads as the nil interface. *)
Definition as_bool (v : option GoValue) : option bool :=
  match v with
  | Some (VBool b) => Some b
  | _ => None
  end.

Definition as_int (v : option GoValue) : option Z :=
  match v with
  | Some (VInt n) => Some n
  | _ => None
  end.

Definition prepareGitLoadOptions (o : gmap string GoValue)
    : SourceGitLoadOptions :=
  let opt := {| CommitFiles := false; CommitMessages := false;
                StagedFiles := false; CommitCount := 0 |} in
  let opt :=
    match as_bool (o !! "commit-files") with
    | Some commit =>
        {| CommitFiles := commit; CommitMessages := CommitMessages opt;
           StagedFiles := StagedFiles opt; CommitCount := CommitCount opt |}
    | None => opt
    end in
  let opt :=
    match as_bool (o !! "commit-messages") with
    | Some commitMessages =>
        {| CommitFiles := CommitFiles opt; CommitMessages := commitMessages;
           StagedFiles := StagedFiles opt; CommitCount := CommitCount opt |}
    | None => opt
    end in
  let opt :=
    match as_bool (o !! "staged-files") with
    | Some stagedFiles =>
        {| CommitFiles := CommitFiles opt; CommitMessages := CommitMessages opt;
           StagedFiles := stagedFiles; CommitCount := CommitCount opt |}
    | None => opt
    end in
  let opt :=
    match as_int (o !! "commit-count") with
    | Some commitCount =>
        {| CommitFiles := CommitFiles opt; CommitMessages := CommitMessages opt;
           StagedFiles := StagedFiles opt; CommitCount := commitCount |}
    | None => opt
    end in
  opt.

Section Package.

Context `{GitEngine}.

(** The callback of [tree.Walk] in [objectsFromCommit]: a blob entry whose
    blob is found adds one object; every other entry adds nothing.  The
    answer is always 0. *)
Definition treeCallback (repo : Repository) (commit : Commit)
    (base : string) (tentry : TreeEntry) (objectList : list Object)
    : list Object * Z :=
  if ObjectType_eqb (te_Type tentry) ObjectBlob then
    match repo_LookupBlob repo (te_Id tentry) with
    | Err _ => (objectList, 0)
    | Ok blob =>
        let o := NewObject (base +:+ te_Name tentry) Type_git "file-content"
                   blob in
        let o := SetMetadata o "commit" (commit_Id commit)
                   {| PrimaryKey := false |} in
        let o := SetMetadata o "uniq-id" (te_Id tentry)
                   {| PrimaryKey := true |} in
        (objectList ++ [o], 0)
    end
  else (objectList, 0).

(** The callback of [walk.Iterate] in [objectsFromCommit].  When
    [commit.Tree()] fails the error is printed and [tree] stays nil:
    [tree.Walk] on it dereferences a nil pointer. *)
Definition commitCallback (repo : Repository)
    (commitFiles commitMessages : bool) (commit : Commit)
    (objectList : list Object) : Outcome (list Object * bool) :=
  let tree := commit_Tree commit in
  let objectList :=
    if commitMessages then
      let o := NewObject ("commit-" +:+ commit_Id commit) Type_git
                 "commit-message" (bytes_of_string (commit_Message commit)) in
      let o := SetMetadata o "commit" (commit_Id commit)
                 {| PrimaryKey := false |} in
      objectList ++ [o]
    else objectList in
  if commitFiles then
    match tree with
    | Ok t => Returns (Tree_Walk (treeCallback repo commit) t objectList, true)
    | Err _ => Panics
    end
  else Returns (objectList, true).

Definition objectsFromCommit (repo : Repository)
    (commitFiles commitMessages : bool) (count : Z)
    : Outcome (list Object * error) :=
  match repo_Walk repo with
  | Err err => Returns ([], Some err)
  | Ok walk =>
      let pushed : RevWalk * error :=
        if (0 <? count)%Z then
          let '(walk, err) :=
            walk_PushRange walk ("HEAD~" +:+ sprintf_d count +:+ "..HEAD") in
          match err with
          | Some _ => walk_PushHead walk
          | None => (walk, None)
          end
        else walk_PushHead walk in
      match pushed with
      | (_, Some err) => Returns ([], Some err)
      | (walk, None) =>
          let walk := walk_Sorting walk SortTime in
          let '(commits, last) := walk_Commits walk in
          let! (objectList, err) :=
            Iterate (commitCallback repo commitFiles commitMessages)
              commits last [] in
          match err with
          | Some err => Returns ([], Some err)
          | None => Returns (objectList, None)
          end
      end
  end.

(** The loop of [objectsFromStagedFiles]: [n] rounds are left, [i] is the
    loop variable. *)
Fixpoint stagedLoop (repo : Repository) (index : Index) (n i : nat)
    (objectList : list Object) : list Object * error :=
  match n with
  | O => (objectList, None)
  | S n' =>
      match EntryByIndex index i with
      | Err err => ([], Some err)
      | Ok entry =>
          match repo_StatusFile repo (ie_Path entry) with
          | Err err => ([], Some err)
          | Ok status =>
              if negb (status =? StatusCurrent)%Z then
                match repo_LookupBlob repo (ie_Id entry) with
                | Err err => ([], Some err)
                | Ok blob =>
                    let o := NewObject (ie_Path entry) Type_git "file-content"
                               blob in
                    let o := SetMetadata o "status" "staged"
                               {| PrimaryKey := false |} in
                    stagedLoop repo index n' (S i) (objectList ++ [o])
                end
              else stagedLoop repo index n' (S i) objectList
          end
      end
  end.

Definition objectsFromStagedFiles (repo : Repository)
    : list Object * error :=
  match repo_Index repo with
  | Err err => ([], Some err)
  | Ok index => stagedLoop repo index (EntryCount index) 0 []
  end.

(** [git.Clone] runs [credentialsCallback], which panics when the ssh
    configuration cannot be read, and [certificateCheckCallback], which
    accepts every certificate: both are part of the outcome of
    [git_Clone]. *)
Definition openGitRepoRemote (gitUri : string)
    : Outcome (Result Repository) :=
  match ioutil_TempDir with
  | Err err => Returns (Err err)
  | Ok tmpdir =>
      let! r := git_Clone gitUri tmpdir in
      match r with
      | Err err => Returns (Err err)
      | Ok repo => Returns (Ok repo)
      end
  end.

Definition openGitRepoLocal (source : string) : Outcome (Result Repository) :=
  match git_OpenRepositoryExtended source with
  | Err err => Returns (Err err)
  | Ok repo => Returns (Ok repo)
  end.

Definition openGitRepo (source : string) : Outcome (Result Repository) :=
  let '(gitUri, remote) := normalizeGitUri source in
  if remote then openGitRepoRemote gitUri else openGitRepoLocal source.

Definition LoadObjects (source : string) (opta : gmap string GoValue)
    : Outcome (list Object * error) :=
  let objectList : list Object := [] in
  let opt := prepareGitLoadOptions opta in
  let! r := openGitRepo source in
  match r with
  | Err err => Returns ([], Some err)
  | Ok repo =>
      let staged (objectList : list Object) : Outcome (list Object * error) :=
        if StagedFiles opt then
          let '(objectListStagedFiles, err) := objectsFromStagedFiles repo in
          match err with
          | Some err => Returns ([], Some err)
          | None => Returns (objectList ++ objectListStagedFiles, None)
          end
        else Returns (objectList, None) in
      if CommitFiles opt && CommitMessages opt then
        let! (objectListCommit, err) :=
          objectsFromCommit repo (CommitFiles opt) (CommitMessages opt)
            (CommitCount opt) in
        match err with
        | Some err => Returns ([], Some err)
        | None => staged (objectList ++ objectListCommit)
        end
      else staged objectList
  end.

End Package.

(** ** A reference engine

    The behaviour of the engine on a repository given by its commit graph,
    its object store, its index and the status of its paths.  A commit
    holds its parents, as the commit object does; two commits are the same
    commit when their ids agree. *)

Module Ref.

Record Repo : Type := {
  r_head : Result Commit;       (* what HEAD resolves to *)
  r_walk : error;               (* non-nil when a walk cannot be set up *)
  r_blobs : gmap Oid bytes;
  r_index : Result Index;
  r_status : gmap string Status
}.

Record Walk : Type := {
  w_repo : Repo;
  w_pushed : list Commit;
  w_hidden : list Commit;
  w_sort : SortType
}.

(** The system around the engine: the repositories on disk, the
    repositories a clone can reach, and the outcome of [ioutil.TempDir]. *)
Record World : Type := {
  on_disk : gmap string Repo;
  on_net : gmap string Repo;
  tmpdir : Result string
}.

(** Every commit reachable from [c], [c] first. *)
Fixpoint ancestors (c : Commit) : list Commit :=
  match c with
  | MkCommit _ _ _ _ ps => c :: flat_map ancestors ps
  end.

(** The commits of [l] without those whose id was seen before. *)
Fixpoint uniq (seen : list Oid) (l : list Commit) : list Commit :=
  match l with
  | [] => []
  | c :: l' =>
      if bool_decide (commit_Id c ∈ seen) then uniq seen l'
      else c :: uniq (commit_Id c :: seen) l'
  end.

(** [rev~n]: the first parent, [n] times. *)
Fixpoint nth_ancestor (n : nat) (c : Commit) : option Commit :=
  match n with
  | O => Some c
  | S n' =>
      match commit_Parents c with
      | p :: _ => nth_ancestor n' p
      | [] => None
      end
  end.

(** The commits a walk selects: reachable from a pushed commit and not
    from a hidden one. *)
Definition selected (w : Walk) : list Commit :=
  let hidden := commit_Id <$> flat_map ancestors (w_hidden w) in
  filter (fun c => commit_Id c ∉ hidden)
         (uniq [] (flat_map ancestors (w_pushed w))).

(** [git.SortTime]: by commit time, the most recent first; commits of the
    same time stay in the order they were in. *)
Fixpoint insert_by_time (c : Commit) (l : list Commit) : list Commit :=
  match l with
  | [] => [c]
  | d :: l' =>
      if (commit_Time d <=? commit_Time c)%Z then c :: d :: l'
      else d :: insert_by_time c l'
  end.

Definition sort_by_time (l : list Commit) : list Commit :=
  foldr insert_by_time [] l.

(** The revision ranges [HEAD~<n>..HEAD], the only ones the package
    writes. *)
Fixpoint strip_prefix (p s : string) : option string :=
  match p with
  | EmptyString => Some s
  | String a p' =>
      match s with
      | String b s' => if Ascii.eqb a b then strip_prefix p' s' else None
      | EmptyString => None
      end
  end.

Definition is_digit (a : ascii) : bool :=
  ((48 <=? N_of_ascii a) && (N_of_ascii a <=? 57))%N.

Fixpoint span_digits (s : string) : string * string :=
  match s with
  | String a s' =>
      if is_digit a then
        let '(ds, rest) := span_digits s' in (String a ds, rest)
      else (EmptyString, s)
  | EmptyString => (EmptyString, EmptyString)
  end.

Definition parse_range (spec : string) : option nat :=
  match strip_prefix "HEAD~" spec with
  | Some s =>
      let '(ds, rest) := span_digits s in
      if String.eqb rest "..HEAD" then
        match NilEmpty.uint_of_string ds with
        | Some d => if String.eqb ds "" then None else Some (N.to_nat (N.of_uint d))
        | None => None
        end
      else None
  | None => None
  end.

Definition push (w : Walk) (c : Commit) : Walk :=
  {| w_repo := w_repo w; w_pushed := c :: w_pushed w;
     w_hidden := w_hidden w; w_sort := w_sort w |}.

Definition hide (w : Walk) (c : Commit) : Walk :=
  {| w_repo := w_repo w; w_pushed := w_pushed w;
     w_hidden := c :: w_hidden w; w_sort := w_sort w |}.

(** [walk.PushRange(spec)]: both ends are resolved first; a range one end
    of which does not exist is rejected and leaves the walk as it was. *)
Definition PushRange (w : Walk) (spec : string) : Walk * error :=
  match parse_range spec with
  | None => (w, Some "failed to parse revision specifier")
  | Some n =>
      match r_head (w_repo w) with
      | Err e => (w, Some e)
      | Ok head =>
          match nth_ancestor n head with
          | None => (w, Some "revspec not found")
          | Some a => (push (hide w a) head, None)
          end
      end
  end.

Definition PushHead (w : Walk) : Walk * error :=
  match r_head (w_repo w) with
  | Err e => (w, Some e)
  | Ok head => (push w head, None)
  end.

Definition Sorting (w : Walk) (m : SortType) : Walk :=
  {| w_repo := w_repo w; w_pushed := w_pushed w;
     w_hidden := w_hidden w; w_sort := m |}.

Definition Commits (w : Walk) : list Commit * error :=
  match w_sort w with
  | SortTime => (sort_by_time (selected w), None)
  | SortNone => (selected w, None)
  end.

Definition NewWalk (r : Repo) : Result Walk :=
  match r_walk r with
  | Some e => Err e
  | None =>
      Ok {| w_repo := r; w_pushed := []; w_hidden := []; w_sort := SortNone |}
  end.

Definition LookupBlob (r : Repo) (id : Oid) : Result bytes :=
  match r_blobs r !! id with
  | Some b => Ok b
  | None => Err "object not found"
  end.

Definition StatusFile (r : Repo) (path : string) : Result Status :=
  match r_status r !! path with
  | Some s => Ok s
  | None => Err "no such path"
  end.

Definition Open (w : World) (path : string) : Result Repo :=
  match on_disk w !! path with
  | Some r => Ok r
  | None => Err "could not find repository"
  end.

Definition Clone (w : World) (url dir : string) : Outcome (Result Repo) :=
  match on_net w !! url with
  | Some r => Returns (Ok r)
  | None => Returns (Err "failed to connect")
  end.

Definition engine (w : World) : GitEngine :=
  {| Repository := Repo;
     RevWalk := Walk;
     git_OpenRepositoryExtended := Open w;
     ioutil_TempDir := tmpdir w;
     git_Clone := Clone w;
     repo_Walk := NewWalk;
     walk_PushRange := PushRange;
     walk_PushHead := PushHead;
     walk_Sorting := Sorting;
     walk_Commits := Commits;
     repo_LookupBlob := LookupBlob;
     repo_Index := r_index;
     repo_StatusFile := StatusFile |}.

(** The first-parent chain of a commit, the commit first. *)
Fixpoint chain (c : Commit) : list Commit :=
  match c with
  | MkCommit _ _ _ _ ps =>
      c :: match ps with
           | p :: _ => chain p
           | [] => []
           end
  end.

(** A history without merges: no commit has two parents. *)
Fixpoint linear (c : Commit) : bool :=
  match c with
  | MkCommit _ _ _ _ ps =>
      match ps with
      | [] => true
      | [p] => linear p
      | _ :: _ :: _ => false
      end
  end.

(** Commit times fall strictly along a list of commits. *)
Fixpoint times_fall (l : list Commit) : bool :=
  match l with
  | c :: (d :: _) as l' => (commit_Time d <? commit_Time c)%Z && times_fall l'
  | _ => true
  end.

End Ref.

(** ** Sample repositories *)

Module Sample.

Definition blob_a : bytes := bytes_of_string "alpha".
Definition blob_b : bytes := bytes_of_string "beta".
Definition blob_k : bytes := bytes_of_string "password=hunter2".

Definition blobs : gmap Oid bytes :=
  <["a1" := blob_a]> (<["b2" := blob_b]> (<["k3" := blob_k]> ∅)).

Definition file (name : string) (id : Oid) : TreeNode :=
  TNode {| te_Name := name; te_Id := id; te_Type := ObjectBlob |} [].

Definition dir (name : string) (id : Oid) (kids : list TreeNode) : TreeNode :=
  TNode {| te_Name := name; te_Id := id; te_Type := ObjectTree |} kids.

Definition tree1 : Tree := [file "a.txt" "a1"].
Definition tree2 : Tree := [file "a.txt" "a1"; dir "conf" "d9" [file "key" "k3"]].

(** A history of three commits without merges. *)
Definition c1 : Commit := MkCommit "c1" "first" 100 (Ok tree1) [].
Definition c2 : Commit := MkCommit "c2" "second" 200 (Ok tree2) [c1].
Definition c3 : Commit := MkCommit "c3" "third" 300 (Ok tree1) [c2].

(** A history of three commits with a merge: [mM] merges [mB], a child of
    [mA], into [mA]. *)
Definition mA : Commit := MkCommit "ma" "base" 100 (Ok tree1) [].
Definition mB : Commit := MkCommit "mb" "side" 200 (Ok tree1) [mA].
Definition mM : Commit := MkCommit "mm" "merge" 300 (Ok tree1) [mA; mB].

(** A history of two commits without merges whose root has the later
    commit time. *)
Definition k1 : Commit := MkCommit "k1" "root" 500 (Ok tree1) [].
Definition k2 : Commit := MkCommit "k2" "tip" 200 (Ok tree1) [k1].

(** A commit whose tree cannot be read, on top of [c1]. *)
Definition cX : Commit := MkCommit "cx" "damaged" 400 (Err "object not found") [c1].

Definition index1 : Index :=
  [ {| ie_Path := "a.txt"; ie_Id := "a1" |};
    {| ie_Path := "conf/key"; ie_Id := "k3" |};
    {| ie_Path := "notes"; ie_Id := "b2" |} ].

(** [a.txt] is unchanged, [conf/key] is modified in the index (flag 2),
    [notes] is new in the index (flag 1). *)
Definition status1 : gmap string Status :=
  <["a.txt" := 0]> (<["conf/key" := 2]> (<["notes" := 1]> ∅)).

Definition repo_of (head : Commit) : Ref.Repo :=
  {| Ref.r_head := Ok head; Ref.r_walk := None; Ref.r_blobs := blobs;
     Ref.r_index := Ok index1; Ref.r_status := status1 |}.

Definition linear_repo : Ref.Repo := repo_of c3.
Definition merge_repo : Ref.Repo := repo_of mM.
Definition damaged_repo : Ref.Repo := repo_of cX.
Definition skewed_repo : Ref.Repo := repo_of k2.

(** A repository the index of which cannot be read. *)
Definition no_index_repo : Ref.Repo :=
  {| Ref.r_head := Ok c3; Ref.r_walk := None; Ref.r_blobs := blobs;
     Ref.r_index := Err "could not read index"; Ref.r_status := status1 |}.

Definition world : Ref.World :=
  {| Ref.on_disk :=
       <["/home/user/widget" := linear_repo]>
       (<["/home/user/merged" := merge_repo]>
       (<["/home/user/damaged" := damaged_repo]>
       (<["/home/user/noindex" := no_index_repo]> ∅)));
     Ref.on_net := <["ssh://git@github.com/acme/widget.git" := linear_repo]> ∅;
     Ref.tmpdir := Ok "/tmp/seekret123" |}.

Definition git : GitEngine := Ref.engine world.

Definition both : gmap string GoValue :=
  <["commit-files" := VBool true]> (<["commit-messages" := VBool true]> ∅).

Definition both_and_staged : gmap string GoValue :=
  <["staged-files" := VBool true]> both.

Definition only_files : gmap string GoValue :=
  <["commit-files" := VBool true]> ∅.

Definition only_staged : gmap string GoValue :=
  <["staged-files" := VBool true]> ∅.

Definition files_and_staged : gmap string GoValue :=
  <["staged-files" := VBool true]> only_files.

End Sample.

(** ** The objects of the specification *)

(** The object of a staged change is the entry's path, the blob of the
    entry and the metadata [status = "staged"]. *)
Definition stagedObject (path : string) (blob : bytes) : Object :=
  {| Name := path; Type_ := Type_git; SubType := "file-content";
     Content := blob;
     Metadata := {[ "status" := {| value := "staged";
                                   attr := {| PrimaryKey := false |} |} ]} |}.

(** The commit-message object of a commit. *)
Definition messageObject (c : Commit) : Object :=
  {| Name := "commit-" +:+ commit_Id c; Type_ := Type_git;
     SubType := "commit-message";
     Content := bytes_of_string (commit_Message c);
     Metadata := {[ "commit" := {| value := commit_Id c;
                                   attr := {| PrimaryKey := false |} |} ]} |}.

(** The file-content object of a blob entry of the tree of a commit. *)
Definition fileObject (c : Commit) (base : string) (tentry : TreeEntry)
    (blob : bytes) : Object :=
  {| Name := base +:+ te_Name tentry; Type_ := Type_git;
     SubType := "file-content"; Content := blob;
     Metadata :=
       <["uniq-id" := {| value := te_Id tentry;
                         attr := {| PrimaryKey := true |} |}]>
       {[ "commit" := {| value := commit_Id c;
                         attr := {| PrimaryKey := false |} |} ]} |}.

(** The tree of a commit can be read. *)
Definition tree_readable (c : Commit) : Prop :=
  exists t, commit_Tree c = Ok t.

(** An object carries the metadata entry [key = val]. *)
Definition has_meta (key val : string) (o : Object) : Prop :=
  exists a, Metadata o !! key = Some {| value := val; attr := a |}.

(** An object of the commit history: it names a commit. *)
Definition from_history (o : Object) : Prop :=
  is_Some (Metadata o !! "commit").

(** The objects a list grew by all satisfy [P]. *)
Definition grown (P : Object -> Prop) (acc objs : list Object) : Prop :=
  exists new, objs = acc ++ new /\ Forall P new.

Section Specification.

Context `{GitEngine}.

(** The status of the path of an index entry is known and is not
    [StatusCurrent]. *)
Definition changed (repo : Repository) (e : IndexEntry) : bool :=
  match repo_StatusFile repo (ie_Path e) with
  | Ok status => negb (status =? StatusCurrent)%Z
  | Err _ => false
  end.

Definition status_known (repo : Repository) (e : IndexEntry) : Prop :=
  exists status, repo_StatusFile repo (ie_Path e) = Ok status.

Definition blob_known (repo : Repository) (e : IndexEntry) : Prop :=
  changed repo e = true -> exists blob, repo_LookupBlob repo (ie_Id e) = Ok blob.

Definition blob_of (repo : Repository) (e : IndexEntry) : bytes :=
  match repo_LookupBlob repo (ie_Id e) with
  | Ok blob => blob
  | Err _ => []
  end.

(** One object per changed entry of the index, in the order of the
    index. *)
Definition stagedObjects (repo : Repository) (index : Index) : list Object :=
  (fun e => stagedObject (ie_Path e) (blob_of repo e))
    <$> filter (fun e => changed repo e = true) index.

(** What [LoadObjects] does once the repository is open, when the commit
    history is left out. *)
Definition stagedOnly (repo : Repository) (stagedFiles : bool)
    : Outcome (list Object * error) :=
  if stagedFiles then
    match objectsFromStagedFiles repo with
    | (_, Some err) => Returns ([], Some err)
    | (objs, None) => Returns (objs, None)
    end
  else Returns ([], None).

(** The part of [objectsFromCommit] after the walk is set up: sort by
    time, iterate, collect. *)
Definition collect (repo : Repository) (commitFiles commitMessages : bool)
    (walk : RevWalk) : Outcome (list Object * error) :=
  let '(commits, last) := walk_Commits (walk_Sorting walk SortTime) in
  let! (objectList, err) :=
    Iterate (commitCallback repo commitFiles commitMessages) commits last [] in
  match err with
  | Some err => Returns ([], Some err)
  | None => Returns (objectList, None)
  end.

(** The walk over everything reachable from the branch head. *)
Definition headWalk (repo : Repository) (commitFiles commitMessages : bool)
    : Outcome (list Object * error) :=
  match repo_Walk repo with
  | Err err => Returns ([], Some err)
  | Ok walk =>
      match walk_PushHead walk with
      | (_, Some err) => Returns ([], Some err)
      | (walk, None) => collect repo commitFiles commitMessages walk
      end
  end.

(** The walk over the range [HEAD~count..HEAD], with the walk from the
    head in its place when the engine rejects the range. *)
Definition rangeWalk (repo : Repository) (commitFiles commitMessages : bool)
    (count : Z) : Outcome (list Object * error) :=
  match repo_Walk repo with
  | Err err => Returns ([], Some err)
  | Ok walk =>
      match walk_PushRange walk ("HEAD~" +:+ sprintf_d count +:+ "..HEAD") with
      | (walk, None) => collect repo commitFiles commitMessages walk
      | (walk, Some _) =>
          match walk_PushHead walk with
          | (_, Some err) => Returns ([], Some err)
          | (walk, None) => collect repo commitFiles commitMessages walk
          end
      end
  end.

(** The commits the walk of [objectsFromCommit] hands to the callback,
    when the walk can be set up. *)
Definition walked (repo : Repository) (count : Z) : option (list Commit) :=
  match repo_Walk repo with
  | Err _ => None
  | Ok walk =>
      let pushed : RevWalk * error :=
        if (0 <? count)%Z then
          let '(walk, err) :=
            walk_PushRange walk ("HEAD~" +:+ sprintf_d count +:+ "..HEAD") in
          match err with
          | Some _ => walk_PushHead walk
          | None => (walk, None)
          end
        else walk_PushHead walk in
      match pushed with
      | (_, Some _) => None
      | (walk, None) => Some (walk_Commits (walk_Sorting walk SortTime)).1
      end
  end.

(** The objects the callbacks add for a list of commits, the first commit
    first. *)
Definition visit (repo : Repository) (commitFiles commitMessages : bool)
    (commits : list Commit) : Outcome (list Object * error) :=
  let! (objectList, err) :=
    Iterate (commitCallback repo commitFiles commitMessages) commits None [] in
  Returns (objectList, err).

End Specification.

(** ** The rest of the package in closed form *)

(** The options map that spells out a set of options, one key per
    field. *)
Definition optionsMap (opt : SourceGitLoadOptions) : gmap string GoValue :=
  <["commit-files" := VBool (CommitFiles opt)]>
  (<["commit-messages" := VBool (CommitMessages opt)]>
  (<["staged-files" := VBool (StagedFiles opt)]>
  (<["commit-count" := VInt (CommitCount opt)]> ∅))).

(** The keys [prepareGitLoadOptions] reads. *)
Definition option_keys : list string :=
  ["commit-files"; "commit-messages"; "staged-files"; "commit-count"].

Definition is_bool (v : GoValue) : bool :=
  match v with VBool _ => true | _ => false end.

Definition is_int (v : GoValue) : bool :=
  match v with VInt _ => true | _ => false end.

(** The entries [tree.Walk] hands to its callback below a node, each with
    the base it is handed with, in the order of the walk. *)
Fixpoint treeFiles (base : string) (n : TreeNode) : list (string * TreeEntry) :=
  match n with
  | TNode e kids =>
      (base, e) :: flat_map (treeFiles (base +:+ te_Name e +:+ "/")) kids
  end.

Definition treeEntries (t : Tree) : list (string * TreeEntry) :=
  flat_map (treeFiles "") t.

(** An object of the package: the constant [Type] and one of the two
    subtypes. *)
Definition well_typed (o : Object) : Prop :=
  Type_ o = Type_git
  /\ (SubType o = "commit-message" \/ SubType o = "file-content").

Section History.

Context `{GitEngine}.

(** What the callback of [tree.Walk] adds for one entry. *)
Definition entryObjects (repo : Repository) (c : Commit)
    (be : string * TreeEntry) : list Object :=
  match te_Type be.2 with
  | ObjectBlob =>
      match repo_LookupBlob repo (te_Id be.2) with
      | Ok blob => [fileObject c be.1 be.2 blob]
      | Err _ => []
      end
  | _ => []
  end.

(** What the callback of [walk.Iterate] adds for one commit: the message
    first, then the files of the tree. *)
Definition commitObjects (repo : Repository) (cf cm : bool) (c : Commit)
    : list Object :=
  (if cm then [messageObject c] else [])
  ++ (if cf then
        match commit_Tree c with
        | Ok t => flat_map (entryObjects repo c) (treeEntries t)
        | Err _ => []
        end
      else []).

(** The walk [objectsFromCommit] sets up: the error that stops the set-up,
    or the commits the sorted walk hands out and the error that ends
    them. *)
Definition walkOutcome (repo : Repository) (count : Z)
    : Result (list Commit * error) :=
  match repo_Walk repo with
  | Err err => Err err
  | Ok walk =>
      let pushed : RevWalk * error :=
        if (0 <? count)%Z then
          let '(walk, err) :=
            walk_PushRange walk ("HEAD~" +:+ sprintf_d count +:+ "..HEAD") in
          match err with
          | Some _ => walk_PushHead walk
          | None => (walk, None)
          end
        else walk_PushHead walk in
      match pushed with
      | (_, Some err) => Err err
      | (walk, None) => Ok (walk_Commits (walk_Sorting walk SortTime))
      end
  end.

Definition unreadable (c : Commit) : bool :=
  match commit_Tree c with Ok _ => false | Err _ => true end.

(** A file-content object of one of [commits]: a blob entry of the tree of
    the commit whose blob the repository holds. *)
Definition file_of (repo : Repository) (commits : list Commit) (o : Object)
    : Prop :=
  exists c t base e blob,
    c ∈ commits /\ commit_Tree c = Ok t /\ (base, e) ∈ treeEntries t
    /\ te_Type e = ObjectBlob /\ repo_LookupBlob repo (te_Id e) = Ok blob
    /\ o = fileObject c base e blob.

(** What [openGitRepoRemote] does with [git.Clone]. *)
Definition cloneInto (gitUri : string) : Outcome (Result Repository) :=
  match ioutil_TempDir with
  | Err err => Returns (Err err)
  | Ok tmpdir => git_Clone gitUri tmpdir
  end.

End History.

(** ** The sources the pattern takes for remote *)

(** The five heads of a remote locator: the text, group 1, group 2, and
    the protocol of the canonical form. *)
Definition locator_heads : list (string * string * string * string) :=
  [("http://", "http", "", "http"); ("https://", "https", "", "https");
   ("git://", "git", "", "git"); ("ssh://", "ssh", "", "ssh");
   ("git@", "", "git@", "ssh")].

(** An ASCII byte the dot of the pattern matches. *)
Definition any_char (x : ascii) : bool :=
  ascii_byte x && negb (Ascii.eqb x "010").

(** The runes a pattern matches: [l] is matched at position [pos] with
    [rest] behind it. *)
Fixpoint denot (r : regex) (pos : nat) (l rest : list rune) : Prop :=
  match r with
  | Bol => l = [] /\ pos = 0%nat
  | Eol => l = [] /\ rest = []
  | Lit s => l = rune_of <$> list_ascii_of_string s
  | One c => exists x, l = [x] /\ charset_mem c x = true
  | Plus c => l <> [] /\ Forall (fun x => charset_mem c x = true) l
  | Opt r1 => denot r1 pos l rest \/ l = []
  | Alt r1 r2 => denot r1 pos l rest \/ denot r2 pos l rest
  | Seq r1 r2 =>
      exists l1 l2, l = l1 ++ l2 /\ denot r1 pos l1 (l2 ++ rest)
                    /\ denot r2 (pos + length l1)%nat l2 rest
  | Group _ r1 => denot r1 pos l rest
  end.

(** What is left to match does not depend on the groups so far. *)
Definition accepts (k : kont) (K : nat -> list rune -> Prop) : Prop :=
  forall pos s caps, is_Some (k pos s caps) <-> K pos s.

(** The runes of the sources the pattern takes for remote: a head, a host
    without [:], [|] and [/], a slash or a colon, an organisation without
    [/], a slash, a repository without [/] and [.], one more rune that is
    not a line feed, and [git]. *)
Definition remote_runes (rs : list rune) : Prop :=
  exists pre u1 u2 proto H sep O P x,
    (pre, u1, u2, proto) ∈ locator_heads
    /\ in_class ":|/" H /\ in_class "/" O /\ in_class "/." P
    /\ (sep = "/"%char \/ sep = ":"%char)
    /\ charset_mem AnyChar x = true
    /\ rs = (rune_of <$> list_ascii_of_string pre)
              ++ (H ++ [sep] :: (O ++ ["/"%char]
                    :: (P ++ [x; ["g"%char]; ["i"%char]; ["t"%char]]))).

(** ** More sample repositories *)

Module Cases.

(** A repository without a commit: [HEAD] does not resolve. *)
Definition unborn_repo : Ref.Repo :=
  {| Ref.r_head := Err "reference 'refs/heads/master' not found";
     Ref.r_walk := None; Ref.r_blobs := Sample.blobs;
     Ref.r_index := Ok []; Ref.r_status := ∅ |}.

(** A repository no walk can be set up on. *)
Definition no_walk_repo : Ref.Repo :=
  {| Ref.r_head := Ok Sample.c3; Ref.r_walk := Some "out of memory";
     Ref.r_blobs := Sample.blobs; Ref.r_index := Ok Sample.index1;
     Ref.r_status := Sample.status1 |}.

(** A repository with nothing staged. *)
Definition clean_repo : Ref.Repo :=
  {| Ref.r_head := Ok Sample.c3; Ref.r_walk := None;
     Ref.r_blobs := Sample.blobs; Ref.r_index := Ok Sample.index1;
     Ref.r_status := <["a.txt" := 0]> (<["conf/key" := 0]> (<["notes" := 0]> ∅)) |}.

(** A repository the status of [notes] cannot be told in. *)
Definition partial_repo : Ref.Repo :=
  {| Ref.r_head := Ok Sample.c3; Ref.r_walk := None;
     Ref.r_blobs := Sample.blobs; Ref.r_index := Ok Sample.index1;
     Ref.r_status := <["a.txt" := 0]> (<["conf/key" := 2]> ∅) |}.

(** An engine whose walks break off behind the first commit. *)
Definition interrupted : GitEngine :=
  {| Repository := Ref.Repo;
     RevWalk := Ref.Walk;
     git_OpenRepositoryExtended := Ref.Open Sample.world;
     ioutil_TempDir := Ref.tmpdir Sample.world;
     git_Clone := Ref.Clone Sample.world;
     repo_Walk := Ref.NewWalk;
     walk_PushRange := Ref.PushRange;
     walk_PushHead := Ref.PushHead;
     walk_Sorting := Ref.Sorting;
     walk_Commits := fun w => (take 1 (Ref.Commits w).1, Some "object not found");
     repo_LookupBlob := Ref.LookupBlob;
     repo_Index := Ref.r_index;
     repo_StatusFile := Ref.StatusFile |}.

(** A map with a key the package does not read and a flag of the wrong
    type. *)
Definition noisy : gmap string GoValue :=
  <["verbose" := VBool true]> (<["staged-files" := VString "yes"]> Sample.both).

End Cases.

(** * Properties *)

Section Properties.

Context `{GitEngine}.

Implicit Types (repo : Repository) (o : Object) (objs acc : list Object).

(** ** The shape of the objects *)

Lemma staged_object_built path blob :
  SetMetadata (NewObject path Type_git "file-content" blob) "status" "staged"
    {| PrimaryKey := false |} = stagedObject path blob.
Proof. reflexivity. Qed.

Lemma message_object_built c :
  SetMetadata
    (NewObject ("commit-" +:+ commit_Id c) Type_git "commit-message"
       (bytes_of_string (commit_Message c)))
    "commit" (commit_Id c) {| PrimaryKey := false |} = messageObject c.
Proof. reflexivity. Qed.

Lemma staged_object_meta path blob :
  has_meta "status" "staged" (stagedObject path blob)
  /\ ~ from_history (stagedObject path blob)
  /\ SubType (stagedObject path blob) = "file-content".
Proof.
  repeat split.
  - eexists. apply lookup_singleton_eq.
  - intros [x Hx]. cbn in Hx. by rewrite lookup_singleton_ne in Hx.
Qed.

Lemma message_object_meta c : has_meta "commit" (commit_Id c) (messageObject c).
Proof. eexists. apply lookup_singleton_eq. Qed.

(** ** The staged change extractor *)

(** The loop only ever appends to the list it was given. *)
Lemma stagedLoop_appends repo index n : forall i acc objs,
  stagedLoop repo index n i acc = (objs, None) ->
  exists new, objs = acc ++ new
    /\ Forall (fun o => exists path blob, o = stagedObject path blob) new.
Proof.
  induction n as [|n IH]; intros i acc objs; cbn [stagedLoop].
  - intros [= <-]. exists []. by rewrite app_nil_r.
  - destruct (EntryByIndex index i) as [entry|]; [|done].
    destruct (repo_StatusFile repo (ie_Path entry)) as [status|]; [|done].
    destruct (negb (status =? StatusCurrent)%Z).
    + destruct (repo_LookupBlob repo (ie_Id entry)) as [blob|]; [|done].
      rewrite staged_object_built. intros Hloop.
      destruct (IH _ _ _ Hloop) as (new & -> & Hnew).
      exists (stagedObject (ie_Path entry) blob :: new).
      split; [by rewrite <- app_assoc|].
      constructor; eauto.
    + apply IH.
Qed.

(** An error of the loop comes with the nil list. *)
Lemma stagedLoop_error repo index n : forall i acc objs err,
  stagedLoop repo index n i acc = (objs, Some err) -> objs = [].
Proof.
  induction n as [|n IH]; intros i acc objs err; cbn [stagedLoop]; [done|].
  destruct (EntryByIndex index i) as [entry|]; [|congruence].
  destruct (repo_StatusFile repo (ie_Path entry)) as [status|]; [|congruence].
  destruct (negb (status =? StatusCurrent)%Z); [|apply IH].
  destruct (repo_LookupBlob repo (ie_Id entry)); [apply IH|congruence].
Qed.

Lemma objectsFromStagedFiles_error repo objs err :
  objectsFromStagedFiles repo = (objs, Some err) -> objs = [].
Proof.
  unfold objectsFromStagedFiles.
  destruct (repo_Index repo); [apply stagedLoop_error|congruence].
Qed.

Lemma objectsFromStagedFiles_objects repo objs :
  objectsFromStagedFiles repo = (objs, None) ->
  Forall (fun o => exists path blob, o = stagedObject path blob) objs.
Proof.
  unfold objectsFromStagedFiles.
  destruct (repo_Index repo); [|done].
  intros Hloop. by destruct (stagedLoop_appends _ _ _ _ _ _ Hloop) as (new & -> & ?).
Qed.

Lemma stagedOnly_objects repo stagedFiles objs err :
  stagedOnly repo stagedFiles = Returns (objs, err) ->
  (err = None \/ objs = [])
  /\ Forall (fun o => exists path blob, o = stagedObject path blob) objs.
Proof.
  unfold stagedOnly. destruct stagedFiles.
  - destruct (objectsFromStagedFiles repo) as [l [e|]] eqn:Hst.
    + intros [= <- <-]. auto.
    + intros [= <- <-]. split; [auto|].
      by apply (objectsFromStagedFiles_objects repo).
  - intros [= <- <-]. auto.
Qed.

(** ** The commit history extractor *)

Lemma collect_error repo cf cm walk objs err :
  collect repo cf cm walk = Returns (objs, Some err) -> objs = [].
Proof.
  unfold collect.
  destruct (walk_Commits _) as [commits last].
  destruct (Iterate _ commits last []) as [[l [e|]]|]; cbn; congruence.
Qed.

Lemma objectsFromCommit_head repo cf cm count :
  count <= 0 -> objectsFromCommit repo cf cm count = headWalk repo cf cm.
Proof.
  intros Hcount. unfold objectsFromCommit, headWalk, collect.
  destruct (Z.ltb_spec 0 count) as [?|_]; [lia|].
  destruct (repo_Walk repo) as [walk|]; [|done].
  by destruct (walk_PushHead walk) as [w [e|]].
Qed.

Lemma objectsFromCommit_range repo cf cm count :
  0 < count -> objectsFromCommit repo cf cm count = rangeWalk repo cf cm count.
Proof.
  intros Hcount. unfold objectsFromCommit, rangeWalk, collect.
  destruct (Z.ltb_spec 0 count) as [_|?]; [|lia].
  destruct (repo_Walk repo) as [walk|]; [|done].
  destruct (walk_PushRange walk _) as [w [e|]]; [|done].
  by destruct (walk_PushHead w) as [w' [e'|]].
Qed.

Lemma headWalk_error repo cf cm objs err :
  headWalk repo cf cm = Returns (objs, Some err) -> objs = [].
Proof.
  unfold headWalk.
  destruct (repo_Walk repo) as [walk|]; [|congruence].
  destruct (walk_PushHead walk) as [w [e|]]; [congruence|].
  apply collect_error.
Qed.

Lemma rangeWalk_error repo cf cm count objs err :
  rangeWalk repo cf cm count = Returns (objs, Some err) -> objs = [].
Proof.
  unfold rangeWalk.
  destruct (repo_Walk repo) as [walk|]; [|congruence].
  destruct (walk_PushRange walk _) as [w [e|]]; [|apply collect_error].
  destruct (walk_PushHead w) as [w' [e'|]]; [congruence|].
  apply collect_error.
Qed.

Lemma objectsFromCommit_error repo cf cm count objs err :
  objectsFromCommit repo cf cm count = Returns (objs, Some err) -> objs = [].
Proof.
  destruct (Z.le_gt_cases count 0).
  - rewrite objectsFromCommit_head by done. apply headWalk_error.
  - rewrite objectsFromCommit_range by lia. apply rangeWalk_error.
Qed.

(** ** The orchestrator *)

(** [LoadObjects] with the history left out. *)
Lemma LoadObjects_without_history source opta :
  CommitFiles (prepareGitLoadOptions opta)
    && CommitMessages (prepareGitLoadOptions opta) = false ->
  LoadObjects source opta =
    (let! r := openGitRepo source in
     match r with
     | Err err => Returns ([], Some err)
     | Ok repo => stagedOnly repo (StagedFiles (prepareGitLoadOptions opta))
     end).
Proof.
  intros Hflags. unfold LoadObjects, stagedOnly. rewrite Hflags.
  destruct (openGitRepo source) as [[repo|]|]; cbn; [|done..].
  destruct (StagedFiles _); [|done].
  by destruct (objectsFromStagedFiles repo) as [l [e|]].
Qed.

(** C1: when exactly one of [commit-files] and [commit-messages] is
    enabled, [LoadObjects] never runs the commit history extractor: its
    result is that of the staged change extractor alone (nothing when
    [staged-files] is off), and no object it returns is a commit-message
    object or names a commit. *)
Theorem C1_single_history_flag_emits_no_history source opta :
  xorb (CommitFiles (prepareGitLoadOptions opta))
       (CommitMessages (prepareGitLoadOptions opta)) = true ->
  LoadObjects source opta =
    (let! r := openGitRepo source in
     match r with
     | Err err => Returns ([], Some err)
     | Ok repo => stagedOnly repo (StagedFiles (prepareGitLoadOptions opta))
     end)
  /\ forall objs err, LoadObjects source opta = Returns (objs, err) ->
       Forall (fun o => ~ from_history o /\ SubType o <> "commit-message") objs.
Proof.
  intros Hone.
  assert (CommitFiles (prepareGitLoadOptions opta)
          && CommitMessages (prepareGitLoadOptions opta) = false) as Hflags.
  { destruct (CommitFiles _), (CommitMessages _); done. }
  split; [by apply LoadObjects_without_history|].
  intros objs err. rewrite LoadObjects_without_history by done.
  destruct (openGitRepo source) as [[repo|]|]; cbn; [| |done].
  - intros Hst. apply stagedOnly_objects in Hst as [_ Hobjs].
    eapply Forall_impl; [exact Hobjs|].
    intros o (path & blob & ->).
    destruct (staged_object_meta path blob) as (_ & Hno & Hsub).
    split; [done|]. by rewrite Hsub.
  - intros [= <- <-]. constructor.
Qed.

(** C9: with none of [commit-files], [commit-messages] and [staged-files]
    enabled, [LoadObjects] still opens the repository (a failure or a
    panic of the resolver is that of [LoadObjects]), and on a source the
    repository of which opens it returns the empty list and the nil
    error. *)
Theorem C9_no_flag_returns_empty source opta :
  CommitFiles (prepareGitLoadOptions opta) = false ->
  CommitMessages (prepareGitLoadOptions opta) = false ->
  StagedFiles (prepareGitLoadOptions opta) = false ->
  LoadObjects source opta =
    (let! r := openGitRepo source in
     match r with
     | Err err => Returns ([], Some err)
     | Ok _ => Returns ([], None)
     end)
  /\ forall repo,
       openGitRepo source = Returns (Ok repo) ->
       LoadObjects source opta = Returns ([], None).
Proof.
  intros Hf Hm Hs.
  rewrite LoadObjects_without_history by (by rewrite Hf).
  rewrite Hs. split; [done|]. by intros repo ->.
Qed.

(** The defaults stay when the three keys are missing or hold values that
    are not booleans. *)
Lemma prepareGitLoadOptions_defaults opta :
  as_bool (opta !! "commit-files") = None ->
  as_bool (opta !! "commit-messages") = None ->
  as_bool (opta !! "staged-files") = None ->
  CommitFiles (prepareGitLoadOptions opta) = false
  /\ CommitMessages (prepareGitLoadOptions opta) = false
  /\ StagedFiles (prepareGitLoadOptions opta) = false.
Proof.
  intros Hf Hm Hs. unfold prepareGitLoadOptions. rewrite Hf, Hm, Hs.
  by destruct (as_int _).
Qed.

(** The repository is opened whatever the flags are: a source that does
    not open is an error of [LoadObjects]. *)
Lemma LoadObjects_open_error source opta err :
  openGitRepo source = Returns (Err err) ->
  LoadObjects source opta = Returns ([], Some err).
Proof. intros Hopen. unfold LoadObjects. by rewrite Hopen. Qed.


(** ** Walking a tree *)

Lemma TreeNode_induction (P : TreeNode -> Prop) :
  (forall e kids, Forall P kids -> P (TNode e kids)) -> forall n, P n.
Proof.
  intros Hstep. fix IH 1. intros [e kids]. apply Hstep.
  induction kids as [|k kids IHkids]; constructor; [apply IH|exact IHkids].
Qed.

Lemma walk_node_unfold {S : Type} (cb : string -> TreeEntry -> S -> S * Z)
    base e kids st :
  walk_node cb base (TNode e kids) st =
    let '(st1, r) := cb base e st in
    if (r <? 0)%Z then (st1, true)
    else if (0 <? r)%Z then (st1, false)
    else walk_nodes cb (base +:+ te_Name e +:+ "/") kids st1.
Proof.
  cbn [walk_node]. destruct (cb base e st) as [st1 r].
  destruct (r <? 0)%Z; [done|]. destruct (0 <? r)%Z; [done|].
  generalize st1. induction kids as [|k kids IH]; intros st2; [done|].
  cbn [walk_nodes]. destruct (walk_node cb _ k st2) as [st3 [|]]; [done|].
  apply IH.
Qed.

(** A property of the state that every call of the callback keeps is kept
    by the walk. *)
Lemma walk_node_keeps {S : Type} (cb : string -> TreeEntry -> S -> S * Z)
    (I : S -> Prop) :
  (forall base e st, I st -> I (fst (cb base e st))) ->
  forall n base st, I st -> I (fst (walk_node cb base n st)).
Proof.
  intros Hcb. induction n as [e kids IH] using TreeNode_induction.
  intros base st Hst. rewrite walk_node_unfold.
  specialize (Hcb base e st Hst). destruct (cb base e st) as [st1 r].
  cbn in Hcb. destruct (r <? 0)%Z; [done|]. destruct (0 <? r)%Z; [done|].
  generalize dependent st1. generalize (base +:+ te_Name e +:+ "/").
  induction IH as [|k kids Hk _ IHkids]; intros base' st1 Hst1; [done|].
  cbn [walk_nodes]. specialize (Hk base' st1 Hst1).
  destruct (walk_node cb base' k st1) as [st2 [|]]; [done|].
  by apply IHkids.
Qed.

Lemma Tree_Walk_keeps {S : Type} (cb : string -> TreeEntry -> S -> S * Z)
    (I : S -> Prop) :
  (forall base e st, I st -> I (fst (cb base e st))) ->
  forall (t : Tree) st, I st -> I (Tree_Walk cb t st).
Proof.
  intros Hcb t. unfold Tree_Walk. generalize "".
  induction t as [|k t IH]; intros base st Hst; [done|].
  cbn [walk_nodes].
  pose proof (walk_node_keeps cb I Hcb k base st Hst) as Hk.
  destruct (walk_node cb base k st) as [st2 [|]]; [done|].
  by apply IH.
Qed.

(** ** The callbacks of the commit walk *)

Lemma file_object_built c base tentry blob :
  SetMetadata
    (SetMetadata (NewObject (base +:+ te_Name tentry) Type_git "file-content" blob)
       "commit" (commit_Id c) {| PrimaryKey := false |})
    "uniq-id" (te_Id tentry) {| PrimaryKey := true |}
  = fileObject c base tentry blob.
Proof. reflexivity. Qed.

Lemma file_object_meta c base tentry blob :
  has_meta "commit" (commit_Id c) (fileObject c base tentry blob).
Proof.
  eexists. cbn. rewrite lookup_insert_ne by done. apply lookup_singleton_eq.
Qed.

Lemma grown_refl P acc : grown P acc acc.
Proof. exists []. by rewrite app_nil_r. Qed.

Lemma grown_snoc P acc objs o : grown P acc objs -> P o -> grown P acc (objs ++ [o]).
Proof.
  intros (new & -> & Hnew) Ho. exists (new ++ [o]).
  split; [by rewrite app_assoc|]. apply Forall_app; auto.
Qed.

Lemma grown_trans P acc objs objs' :
  grown P acc objs -> grown P objs objs' -> grown P acc objs'.
Proof.
  intros (new & -> & Hnew) (new' & -> & Hnew'). exists (new ++ new').
  split; [by rewrite app_assoc|]. apply Forall_app; auto.
Qed.

Lemma grown_impl (P Q : Object -> Prop) acc objs :
  (forall o, P o -> Q o) -> grown P acc objs -> grown Q acc objs.
Proof.
  intros HPQ (new & -> & Hnew). exists new. split; [done|].
  by eapply Forall_impl.
Qed.

(** A failed blob lookup skips the entry and lets the walk go on. *)
Lemma treeCallback_blob_error repo c base tentry objs e :
  repo_LookupBlob repo (te_Id tentry) = Err e ->
  treeCallback repo c base tentry objs = (objs, 0).
Proof.
  intros Hblob. unfold treeCallback. rewrite Hblob.
  by destruct (ObjectType_eqb _ _).
Qed.

Lemma treeCallback_grows repo c base tentry acc objs :
  grown (has_meta "commit" (commit_Id c)) acc objs ->
  grown (has_meta "commit" (commit_Id c)) acc
    (fst (treeCallback repo c base tentry objs)).
Proof.
  intros Hacc. unfold treeCallback.
  destruct (ObjectType_eqb _ _); [|done].
  destruct (repo_LookupBlob repo (te_Id tentry)) as [blob|]; [|done].
  rewrite file_object_built. cbn [fst].
  apply grown_snoc; [done|apply file_object_meta].
Qed.

Lemma commitCallback_grows repo cf cm c acc objs more :
  commitCallback repo cf cm c acc = Returns (objs, more) ->
  more = true /\ grown (has_meta "commit" (commit_Id c)) acc objs.
Proof.
  unfold commitCallback. rewrite message_object_built.
  assert (grown (has_meta "commit" (commit_Id c)) acc
            (if cm then acc ++ [messageObject c] else acc)) as Hmsg.
  { destruct cm; [|apply grown_refl].
    apply grown_snoc; [apply grown_refl|apply message_object_meta]. }
  destruct cf.
  - destruct (commit_Tree c) as [t|]; [|done].
    intros [= <- <-]. split; [done|].
    apply (Tree_Walk_keeps _ (grown _ acc)); [|done].
    intros base e st. apply treeCallback_grows.
  - by intros [= <- <-].
Qed.

Lemma Iterate_grows repo cf cm commits last : forall acc objs err,
  Iterate (commitCallback repo cf cm) commits last acc = Returns (objs, err) ->
  err = last
  /\ grown (fun o => exists c, c ∈ commits /\ has_meta "commit" (commit_Id c) o)
       acc objs.
Proof.
  induction commits as [|c commits IH]; intros acc objs err; cbn [Iterate].
  - intros [= <- <-]. split; [done|apply grown_refl].
  - destruct (commitCallback repo cf cm c acc) as [[objs1 more]|] eqn:Hcb;
      cbn [obind]; [|done].
    apply commitCallback_grows in Hcb as [-> Hgrown]. intros Hrest.
    apply IH in Hrest as [-> Hrest]. split; [done|].
    eapply grown_trans.
    + eapply grown_impl; [|exact Hgrown].
      intros o Ho. exists c. split; [left|done].
    + eapply grown_impl; [|exact Hrest].
      intros o (c' & Hin & Ho). exists c'. split; [by right|done].
Qed.

Lemma collect_objects repo cf cm walk objs err :
  collect repo cf cm walk = Returns (objs, err) ->
  Forall (fun o => exists c, has_meta "commit" (commit_Id c) o) objs.
Proof.
  unfold collect. destruct (walk_Commits _) as [commits last].
  destruct (Iterate _ commits last []) as [[l e]|] eqn:Hit; cbn [obind]; [|done].
  apply Iterate_grows in Hit as [-> (new & -> & Hnew)].
  destruct last; intros [= <- <-]; [constructor|].
  cbn. eapply Forall_impl; [exact Hnew|]. intros o (c & _ & Ho). eauto.
Qed.

Lemma objectsFromCommit_objects repo cf cm count objs err :
  objectsFromCommit repo cf cm count = Returns (objs, err) ->
  Forall (fun o => exists c, has_meta "commit" (commit_Id c) o) objs.
Proof.
  destruct (Z.le_gt_cases count 0).
  - rewrite objectsFromCommit_head by done. unfold headWalk.
    destruct (repo_Walk repo) as [walk|]; [|intros [= <- <-]; constructor].
    destruct (walk_PushHead walk) as [w [e|]];
      [intros [= <- <-]; constructor|apply collect_objects].
  - rewrite objectsFromCommit_range by lia. unfold rangeWalk.
    destruct (repo_Walk repo) as [walk|]; [|intros [= <- <-]; constructor].
    destruct (walk_PushRange walk _) as [w [e|]]; [|apply collect_objects].
    destruct (walk_PushHead w) as [w' [e'|]];
      [intros [= <- <-]; constructor|apply collect_objects].
Qed.

(** Once the walk is set up and runs to its regular end, the extractor
    does not return an error: it returns a list or it panics. *)
Lemma collect_no_error repo cf cm walk commits objs err :
  walk_Commits (walk_Sorting walk SortTime) = (commits, None) ->
  collect repo cf cm walk = Returns (objs, err) -> err = None.
Proof.
  unfold collect. intros ->.
  destruct (Iterate _ commits None []) as [[l e]|] eqn:Hit; cbn [obind]; [|done].
  apply Iterate_grows in Hit as [-> _]. by intros [= <- <-].
Qed.

(** With readable trees the callbacks return, and so does the walk. *)
Lemma commitCallback_returns repo cf cm c acc :
  tree_readable c ->
  exists objs, commitCallback repo cf cm c acc = Returns (objs, true).
Proof.
  intros [t Ht]. unfold commitCallback. rewrite Ht. destruct cf; eauto.
Qed.

Lemma Iterate_returns repo cf cm commits last : forall acc,
  Forall tree_readable commits ->
  exists objs,
    Iterate (commitCallback repo cf cm) commits last acc = Returns (objs, last).
Proof.
  induction commits as [|c commits IH]; intros acc Hall; cbn [Iterate]; [eauto|].
  apply Forall_cons in Hall as [Hc Hall].
  destruct (commitCallback_returns repo cf cm c acc Hc) as [objs ->].
  cbn [obind]. by apply IH.
Qed.

Lemma objectsFromCommit_returns repo cf cm count :
  (forall commits, walked repo count = Some commits ->
                   Forall tree_readable commits) ->
  exists r, objectsFromCommit repo cf cm count = Returns r.
Proof.
  unfold walked, objectsFromCommit.
  destruct (repo_Walk repo) as [walk|]; [|eauto].
  destruct (if (0 <? count)%Z then _ else _) as [w [e|]]; [eauto|].
  destruct (walk_Commits _) as [commits last]. intros Hall.
  destruct (Iterate_returns repo cf cm commits last [] (Hall _ eq_refl))
    as [objs ->].
  cbn [obind]. destruct last; eauto.
Qed.

(** C8: every object [LoadObjects] returns carries a provenance entry:
    the objects the callback of the commit walk adds for a commit carry
    [commit], holding the id of that commit; the objects of the staged
    change extractor carry [status]. *)
Theorem C8_objects_carry_provenance :
  (forall repo cf cm c acc objs more,
     commitCallback repo cf cm c acc = Returns (objs, more) ->
     grown (has_meta "commit" (commit_Id c)) acc objs)
  /\ (forall repo cf cm count objs err,
        objectsFromCommit repo cf cm count = Returns (objs, err) ->
        Forall (fun o => exists c, has_meta "commit" (commit_Id c) o) objs)
  /\ (forall repo objs err,
        objectsFromStagedFiles repo = (objs, err) ->
        Forall (has_meta "status" "staged") objs)
  /\ (forall source opta objs err,
        LoadObjects source opta = Returns (objs, err) ->
        Forall (fun o => (exists c, has_meta "commit" (commit_Id c) o)
                         \/ has_meta "status" "staged" o) objs).
Proof.
  assert (forall repo objs err,
            objectsFromStagedFiles repo = (objs, err) ->
            Forall (has_meta "status" "staged") objs) as Hstaged.
  { intros repo objs [e|] Hst.
    - apply objectsFromStagedFiles_error in Hst as ->. constructor.
    - apply objectsFromStagedFiles_objects in Hst.
      eapply Forall_impl; [exact Hst|].
      intros o (path & blob & ->). apply staged_object_meta. }
  split; [|split; [|split]].
  - intros repo cf cm c acc objs more Hcb.
    by apply commitCallback_grows in Hcb as [_ ?].
  - intros repo cf cm count objs err. apply objectsFromCommit_objects.
  - exact Hstaged.
  - intros source opta objs err. unfold LoadObjects.
    destruct (openGitRepo source) as [[repo|]|]; cbn [obind];
      [| intros [= <- <-]; constructor | done].
    assert (forall acc,
      Forall (fun o => (exists c, has_meta "commit" (commit_Id c) o)
                       \/ has_meta "status" "staged" o) acc ->
      (if StagedFiles (prepareGitLoadOptions opta)
       then let '(l, err0) := objectsFromStagedFiles repo in
            match err0 with
            | Some err1 => Returns ([], Some err1)
            | None => Returns (acc ++ l, None)
            end
       else Returns (acc, None)) = Returns (objs, err) ->
      Forall (fun o => (exists c, has_meta "commit" (commit_Id c) o)
                       \/ has_meta "status" "staged" o) objs) as Hrest.
    { intros acc Hacc. destruct (StagedFiles _).
      - destruct (objectsFromStagedFiles repo) as [l [e|]] eqn:Hst.
        + intros [= <- <-]. constructor.
        + intros [= <- <-]. apply Forall_app. split; [done|].
          apply Hstaged in Hst. eapply Forall_impl; [exact Hst|]. auto.
      - by intros [= <- <-]. }
    destruct (CommitFiles _ && CommitMessages _).
    + destruct (objectsFromCommit repo _ _ _) as [[l [e|]]|] eqn:Hc;
        cbn [obind]; [intros [= <- <-]; constructor| |done].
      apply Hrest. cbn. apply objectsFromCommit_objects in Hc.
      eapply Forall_impl; [exact Hc|]. auto.
    + apply Hrest. constructor.
Qed.

(** X22: whenever [LoadObjects] returns, it returns a list with the nil
    error or the nil list with an error, never objects beside an error;
    the list is the whole of the history objects followed by the whole of
    the staged objects; when the staged change extractor fails after the
    history was collected, the history objects are dropped.  It does
    return, once the repository was opened, when the trees of the commits
    of the walk can be read. *)
Theorem X22_load_list_or_error source opta :
  (forall objs err,
     LoadObjects source opta = Returns (objs, Some err) -> objs = [])
  /\ (forall objs,
        LoadObjects source opta = Returns (objs, None) ->
        exists repo history staged,
          openGitRepo source = Returns (Ok repo)
          /\ objs = history ++ staged
          /\ (if CommitFiles (prepareGitLoadOptions opta)
                 && CommitMessages (prepareGitLoadOptions opta)
              then objectsFromCommit repo true true
                     (CommitCount (prepareGitLoadOptions opta))
                   = Returns (history, None)
              else history = [])
          /\ (if StagedFiles (prepareGitLoadOptions opta)
              then objectsFromStagedFiles repo = (staged, None)
              else staged = []))
  /\ (forall repo history staged err,
        openGitRepo source = Returns (Ok repo) ->
        CommitFiles (prepareGitLoadOptions opta) = true ->
        CommitMessages (prepareGitLoadOptions opta) = true ->
        StagedFiles (prepareGitLoadOptions opta) = true ->
        objectsFromCommit repo true true
          (CommitCount (prepareGitLoadOptions opta)) = Returns (history, None) ->
        objectsFromStagedFiles repo = (staged, Some err) ->
        LoadObjects source opta = Returns ([], Some err))
  /\ (forall repo,
        openGitRepo source = Returns (Ok repo) ->
        (forall commits,
           walked repo (CommitCount (prepareGitLoadOptions opta)) = Some commits ->
           Forall tree_readable commits) ->
        exists objs err, LoadObjects source opta = Returns (objs, err)).
Proof.
  split; [|split; [|split]]; cycle 3.
  { intros repo Hopen Hall. unfold LoadObjects. rewrite Hopen. cbn [obind].
    assert (forall acc, exists objs err,
      (if StagedFiles (prepareGitLoadOptions opta)
       then let '(l, err0) := objectsFromStagedFiles repo in
            match err0 with
            | Some err1 => Returns ([], Some err1)
            | None => Returns (acc ++ l, None)
            end
       else Returns (acc, None)) = Returns (objs, err)) as Hrest.
    { intros acc. destruct (StagedFiles _); [|eauto].
      destruct (objectsFromStagedFiles repo) as [l [e|]]; eauto. }
    destruct (CommitFiles _ && CommitMessages _); [|apply Hrest].
    destruct (objectsFromCommit_returns repo
                (CommitFiles (prepareGitLoadOptions opta))
                (CommitMessages (prepareGitLoadOptions opta))
                (CommitCount (prepareGitLoadOptions opta)) Hall)
      as [[l [e|]] ->]; cbn [obind]; [eauto|apply Hrest]. }
  - intros objs err. unfold LoadObjects.
    destruct (openGitRepo source) as [[repo|]|]; cbn [obind]; [|congruence|done].
    assert (forall acc,
      (if StagedFiles (prepareGitLoadOptions opta)
       then let '(l, err0) := objectsFromStagedFiles repo in
            match err0 with
            | Some err1 => Returns ([], Some err1)
            | None => Returns (acc ++ l, None)
            end
       else Returns (acc, None)) = Returns (objs, Some err) -> objs = [])
      as Hrest.
    { intros acc. destruct (StagedFiles _); [|congruence].
      destruct (objectsFromStagedFiles repo) as [l [e|]]; congruence. }
    destruct (CommitFiles _ && CommitMessages _); [|apply Hrest].
    destruct (objectsFromCommit repo _ _ _) as [[l [e|]]|]; cbn [obind];
      [congruence|apply Hrest|done].
  - intros objs. unfold LoadObjects.
    destruct (openGitRepo source) as [[repo|]|]; cbn [obind]; [|done..].
    destruct (CommitFiles _ && CommitMessages _) eqn:Hflags.
    + apply andb_prop in Hflags as [-> ->].
      destruct (objectsFromCommit repo true true _) as [[l [e|]]|] eqn:Hc;
        cbn [obind]; [done| |done].
      destruct (StagedFiles _).
      * destruct (objectsFromStagedFiles repo) as [l' [e|]] eqn:Hst; [done|].
        intros [= <-]. by exists repo, l, l'.
      * intros [= <-]. exists repo, l, []. by rewrite app_nil_r.
    + destruct (StagedFiles _).
      * destruct (objectsFromStagedFiles repo) as [l' [e|]] eqn:Hst; [done|].
        intros [= <-]. by exists repo, [], l'.
      * intros [= <-]. by exists repo, [], [].
  - intros repo history staged err Hopen Hf Hm Hs Hhist Hst.
    unfold LoadObjects. rewrite Hopen. cbn [obind].
    rewrite Hf, Hm. cbn [andb]. rewrite Hhist. cbn [obind].
    by rewrite Hs, Hst.
Qed.

(** ** The staged change extractor and the index *)

Lemma EntryByIndex_middle (pre l : list IndexEntry) e :
  EntryByIndex (pre ++ e :: l) (length pre) = Ok e.
Proof. unfold EntryByIndex. by rewrite list_lookup_middle. Qed.

Lemma stagedObjects_cons repo e l :
  stagedObjects repo (e :: l) =
    if changed repo e
    then stagedObject (ie_Path e) (blob_of repo e) :: stagedObjects repo l
    else stagedObjects repo l.
Proof.
  unfold stagedObjects. rewrite filter_cons.
  destruct (changed repo e); by case_decide.
Qed.

(** The loop over the indices is the pass over the entries: when every
    status and every blob that is asked for is there, the loop succeeds
    with one object per changed entry. *)
Lemma stagedLoop_complete repo index : forall l pre acc,
  index = pre ++ l ->
  Forall (status_known repo) l -> Forall (blob_known repo) l ->
  stagedLoop repo index (length l) (length pre) acc
  = (acc ++ stagedObjects repo l, None).
Proof.
  induction l as [|e l IH]; intros pre acc Hindex Hstatus Hblob.
  - cbn. by rewrite app_nil_r.
  - apply Forall_cons in Hstatus as [[status Hst] Hstatus].
    apply Forall_cons in Hblob as [Hb Hblob].
    cbn [length stagedLoop]. rewrite Hindex, EntryByIndex_middle, <- Hindex, Hst.
    rewrite stagedObjects_cons. unfold blob_known, changed, blob_of in *.
    rewrite Hst in *.
    assert (index = (pre ++ [e]) ++ l) as Hindex' by by rewrite <- app_assoc.
    assert (S (length pre) = length (pre ++ [e])) as ->
      by (rewrite length_app; cbn; lia).
    destruct (negb (status =? StatusCurrent)%Z).
    + destruct (Hb eq_refl) as [blob ->]. rewrite staged_object_built.
      rewrite (IH _ _ Hindex' Hstatus Hblob). by rewrite <- app_assoc.
    + apply (IH _ _ Hindex' Hstatus Hblob).
Qed.

(** A loop that succeeds found every status and every blob it asked
    for. *)
Lemma stagedLoop_sound repo index : forall l pre acc objs,
  index = pre ++ l ->
  stagedLoop repo index (length l) (length pre) acc = (objs, None) ->
  Forall (status_known repo) l /\ Forall (blob_known repo) l.
Proof.
  induction l as [|e l IH]; intros pre acc objs Hindex; [by split|].
  cbn [length stagedLoop]. rewrite Hindex, EntryByIndex_middle, <- Hindex.
  assert (index = (pre ++ [e]) ++ l) as Hindex' by by rewrite <- app_assoc.
  assert (S (length pre) = length (pre ++ [e])) as ->
    by (rewrite length_app; cbn; lia).
  destruct (repo_StatusFile repo (ie_Path e)) as [status|] eqn:Hst; [|done].
  destruct (negb (status =? StatusCurrent)%Z) eqn:Hch.
  - destruct (repo_LookupBlob repo (ie_Id e)) as [blob|] eqn:Hb; [|done].
    intros Hloop. destruct (IH _ _ _ Hindex' Hloop) as [Hs Hbs].
    split; constructor; try done; [by exists status|].
    intros _. by exists blob.
  - intros Hloop. destruct (IH _ _ _ Hindex' Hloop) as [Hs Hbs].
    split; constructor; try done; [by exists status|].
    unfold blob_known, changed. by rewrite Hst, Hch.
Qed.

Lemma stagedObjects_changed repo index :
  Forall (fun o => repo_StatusFile repo (Name o) <> Ok StatusCurrent)
         (stagedObjects repo index).
Proof.
  unfold stagedObjects. apply Forall_fmap, Forall_forall.
  intros e [Hch _]%list_elem_of_filter. cbn.
  unfold changed in Hch.
  destruct (repo_StatusFile repo (ie_Path e)) as [status|]; [|done].
  intros [= ->]. done.
Qed.

(** C4: on the index of the repository, [objectsFromStagedFiles] returns
    one object per entry whose status is not [StatusCurrent], in the order
    of the index, each with the path of the entry as id, the blob of the
    entry as payload and the metadata [status = "staged"]; no object of
    the result has a path whose status is [StatusCurrent].  It returns
    this list whenever the statuses and the blobs it asks for are
    there. *)
Theorem C4_staged_objects repo index :
  repo_Index repo = Ok index ->
  (Forall (status_known repo) index -> Forall (blob_known repo) index ->
   objectsFromStagedFiles repo = (stagedObjects repo index, None))
  /\ (forall objs,
        objectsFromStagedFiles repo = (objs, None) ->
        objs = stagedObjects repo index
        /\ length objs = length (filter (fun e => changed repo e = true) index)
        /\ Forall (fun o => repo_StatusFile repo (Name o) <> Ok StatusCurrent)
                  objs).
Proof.
  intros Hindex. unfold objectsFromStagedFiles. rewrite Hindex.
  unfold EntryCount. split.
  - intros Hstatus Hblob.
    exact (stagedLoop_complete repo index index [] [] eq_refl Hstatus Hblob).
  - intros objs Hloop.
    destruct (stagedLoop_sound repo index index [] [] objs eq_refl Hloop)
      as [Hstatus Hblob].
    assert (stagedLoop repo index (length index) 0 []
            = (stagedObjects repo index, None)) as Hall
      by exact (stagedLoop_complete repo index index [] [] eq_refl Hstatus Hblob).
    rewrite Hall in Hloop. injection Hloop as <-. split; [done|]. split.
    + unfold stagedObjects. by rewrite length_fmap.
    + apply stagedObjects_changed.
Qed.

End Properties.

(** ** The reference engine *)

Lemma Commit_induction (P : Commit -> Prop) :
  (forall id m t tr ps, Forall P ps -> P (MkCommit id m t tr ps)) ->
  forall c, P c.
Proof.
  intros Hstep. fix IH 1. intros [id m t tr ps]. apply Hstep.
  induction ps as [|p ps IHps]; constructor; [apply IH|exact IHps].
Qed.

(** *** Revision ranges *)

Lemma append_String a s t : String a s +:+ t = String a (s +:+ t).
Proof. reflexivity. Qed.




(** *** Histories without merges *)

Lemma ancestors_linear c : Ref.linear c = true -> Ref.ancestors c = Ref.chain c.
Proof.
  induction c as [id m t tr ps IH] using Commit_induction.
  destruct ps as [|p [|q ps]]; cbn [Ref.linear]; [done| |done].
  intros Hp. apply Forall_cons in IH as [IH _].
  cbn [Ref.ancestors Ref.chain flat_map]. by rewrite app_nil_r, IH.
Qed.




Lemma uniq_fresh : forall (l : list Commit) seen,
  NoDup (commit_Id <$> l) ->
  (forall c, c ∈ l -> commit_Id c ∉ seen) ->
  Ref.uniq seen l = l.
Proof.
  induction l as [|c l IH]; intros seen Hnodup Hfresh; [done|].
  cbn [Ref.uniq]. rewrite fmap_cons in Hnodup.
  apply NoDup_cons in Hnodup as [Hc Hnodup].
  rewrite bool_decide_eq_false_2 by (apply Hfresh; left).
  f_equal. apply IH; [done|].
  intros d Hd [Heq|Hseen]%elem_of_cons.
  - apply Hc. rewrite <- Heq. by apply list_elem_of_fmap_2.
  - by apply (Hfresh d); [right|].
Qed.

Lemma filter_all {A} (P : A -> Prop) `{forall x, Decision (P x)} (l : list A) :
  Forall P l -> filter P l = l.
Proof.
  induction 1 as [|x l Hx _ IH]; [done|].
  by rewrite filter_cons_True, IH.
Qed.

Lemma filter_none {A} (P : A -> Prop) `{forall x, Decision (P x)} (l : list A) :
  Forall (fun x => ~ P x) l -> filter P l = [].
Proof.
  induction 1 as [|x l Hx _ IH]; [done|].
  by rewrite filter_cons_False, IH.
Qed.



Lemma times_fall_tail c l : Ref.times_fall (c :: l) = true -> Ref.times_fall l = true.
Proof.
  destruct l as [|d l]; [done|]. cbn [Ref.times_fall].
  by intros [_ ?]%andb_prop.
Qed.


(** Sorting by time leaves a list of falling times as it is. *)
Lemma sort_by_time_sorted l :
  Ref.times_fall l = true -> Ref.sort_by_time l = l.
Proof.
  induction l as [|c l IH]; intros Hfall; [done|].
  unfold Ref.sort_by_time in *. cbn [foldr].
  rewrite IH by by eapply times_fall_tail.
  destruct l as [|d l]; [done|]. cbn [Ref.times_fall] in Hfall.
  apply andb_prop in Hfall as [Hlt _]. cbn [Ref.insert_by_time].
  apply Z.ltb_lt in Hlt.
  by destruct (Z.leb_spec (commit_Time d) (commit_Time c)); [|lia].
Qed.

(** *** The commit walk on the reference engine *)

Lemma collect_visit `{GitEngine} (repo : Repository) cf cm walk commits :
  walk_Commits (walk_Sorting walk SortTime) = (commits, None) ->
  collect repo cf cm walk = visit repo cf cm commits.
Proof.
  unfold collect, visit. intros ->.
  destruct (Iterate _ commits None []) as [[l e]|] eqn:Hit; cbn [obind]; [|done].
  by apply Iterate_grows in Hit as [-> _].
Qed.

Section Reference.

Variable world : Ref.World.
Variable repo : Ref.Repo.
Variable head : Commit.

Hypothesis Hhead : Ref.r_head repo = Ok head.
Hypothesis Hwalk : Ref.r_walk repo = None.
Hypothesis Hlinear : Ref.linear head = true.
Hypothesis Hnodup : NoDup (commit_Id <$> Ref.chain head).
Hypothesis Hfall : Ref.times_fall (Ref.chain head) = true.

Lemma ref_selected_head w :
  Ref.w_pushed w = [head] -> Ref.w_hidden w = [] ->
  Ref.selected w = Ref.chain head.
Proof.
  intros Hp Hh. unfold Ref.selected. rewrite Hp, Hh. cbn [flat_map fmap list_fmap].
  rewrite app_nil_r, ancestors_linear by done.
  rewrite uniq_fresh; [|done|intros c _; apply not_elem_of_nil].
  apply filter_all, Forall_forall. intros c _. apply not_elem_of_nil.
Qed.


Lemma ref_headWalk cf cm :
  @headWalk (Ref.engine world) repo cf cm = @visit (Ref.engine world) repo cf cm (Ref.chain head).
Proof.
  unfold headWalk. cbn [repo_Walk walk_PushHead Ref.engine].
  unfold Ref.NewWalk, Ref.PushHead. rewrite Hwalk. cbn [Ref.w_repo].
  rewrite Hhead. apply collect_visit.
  cbn [walk_Commits walk_Sorting Ref.engine Ref.Commits Ref.Sorting Ref.w_sort].
  rewrite ref_selected_head by done. by rewrite sort_by_time_sorted.
Qed.


End Reference.





(** ** The locator normaliser *)

(** *** Runes *)

Lemma ascii_not_in lo hi c :
  ascii_byte c = true -> (128 <= lo)%N -> byte_in lo hi c = false.
Proof.
  unfold ascii_byte, byte_in. intros [_ Hc%N.leb_le]%andb_prop Hlo.
  apply andb_false_intro1, N.leb_gt. lia.
Qed.

Lemma rune_width_ascii c t : ascii_byte c = true -> rune_width c t = 1%nat.
Proof. unfold rune_width, ascii_byte. by intros ->. Qed.

Lemma rune_width_bounds b t : (1 <= rune_width b t <= S (length t))%nat.
Proof.
  unfold rune_width.
  repeat match goal with
         | |- context [if ?c then _ else _] => destruct c
         | |- context [match ?l with [] => _ | _ :: _ => _ end] => destruct l
         end; cbn [length]; lia.
Qed.

(** A rune does not reach over an ASCII byte. *)
Lemma rune_width_app b t c rest :
  ascii_byte c = true -> rune_width b (t ++ c :: rest) = rune_width b t.
Proof.
  intros Hc.
  assert (forall lo hi, (128 <= lo)%N -> byte_in lo hi c = false) as Hno
    by (intros; by apply ascii_not_in).
  assert (cont c = false) as Hcont by (apply Hno; lia).
  unfold rune_width.
  destruct t as [|b1 [|b2 [|b3 t]]]; cbn [app];
    rewrite ?Hcont, ?andb_false_r, ?(Hno 128%N), ?(Hno 160%N), ?(Hno 144%N) by lia;
    repeat match goal with
           | |- context [match ?l with [] => _ | _ :: _ => _ end] => destruct l
           | |- context [if ?c then _ else _] => destruct c; cbn [andb]
           end; reflexivity.
Qed.

Lemma runes_fuel_enough n : forall m l,
  (length l <= n)%nat -> (length l <= m)%nat -> runes_fuel n l = runes_fuel m l.
Proof.
  induction n as [|n IH]; intros m [|b t] Hn Hm; cbn [length] in *;
    try lia; try by destruct m.
  destruct m as [|m]; [lia|]. cbn [runes_fuel]. f_equal.
  pose proof (rune_width_bounds b t).
  apply IH; rewrite length_drop; cbn [length]; lia.
Qed.

Lemma runes_l_cons b t :
  runes_l (b :: t) =
    take (rune_width b t) (b :: t) :: runes_l (drop (rune_width b t) (b :: t)).
Proof.
  unfold runes_l. cbn [length runes_fuel]. f_equal.
  pose proof (rune_width_bounds b t).
  apply runes_fuel_enough; rewrite length_drop; cbn [length]; lia.
Qed.

Lemma runes_l_ascii c t : ascii_byte c = true -> runes_l (c :: t) = [c] :: runes_l t.
Proof. intros Hc. by rewrite runes_l_cons, rune_width_ascii. Qed.

Lemma runes_l_app_ascii c rest : forall n l,
  (length l <= n)%nat -> ascii_byte c = true ->
  runes_l (l ++ c :: rest) = runes_l l ++ [c] :: runes_l rest.
Proof.
  induction n as [|n IH]; intros [|b t] Hn Hc; cbn [length] in *; try lia;
    try by apply runes_l_ascii.
  cbn [app]. rewrite !runes_l_cons, rune_width_app by done.
  pose proof (rune_width_bounds b t) as Hw.
  set (w := rune_width b t) in *.
  change (b :: t ++ c :: rest) with ((b :: t) ++ c :: rest).
  rewrite take_app_le, drop_app_le by (cbn [length]; lia).
  rewrite IH by (try rewrite length_drop; cbn [length]; (done || lia)).
  done.
Qed.

Lemma concat_runes_l : forall n l, (length l <= n)%nat -> concat (runes_l l) = l.
Proof.
  induction n as [|n IH]; intros [|b t] Hn; cbn [length] in *; try lia; try done.
  rewrite runes_l_cons. cbn [concat].
  pose proof (rune_width_bounds b t).
  rewrite IH by (rewrite length_drop; cbn [length]; lia).
  apply take_drop.
Qed.

(** A rune of one byte is its first byte. *)
Lemma runes_l_class cs : forall n l,
  (length l <= n)%nat ->
  Forall (fun b => existsb (Ascii.eqb b) (list_ascii_of_string cs) = false) l ->
  Forall (fun r => charset_mem (NotIn cs) r = true) (runes_l l).
Proof.
  induction n as [|n IH]; intros [|b t] Hn Hl; cbn [length] in *; try lia;
    try by constructor.
  rewrite runes_l_cons. pose proof (rune_width_bounds b t) as Hw.
  constructor.
  - apply Forall_cons in Hl as [Hb _]. cbn [charset_mem].
    apply negb_true_iff.
    destruct (rune_width b t) as [|[|w]]; [lia|exact Hb|].
    destruct t as [|b1 t]; [cbn [length] in Hw; lia|]. cbn [take is_char].
    clear. by induction (list_ascii_of_string cs).
  - apply IH; [rewrite length_drop; cbn [length]; lia|].
    by apply Forall_drop.
Qed.

(** *** The pattern *)

Lemma gitregexp_parts : gitregexp = Seq Bol (Seq head_re tail_re).
Proof. reflexivity. Qed.

Lemma plus_match_greedy c rest caps k res r : forall l pos,
  l <> [] ->
  Forall (fun x => charset_mem c x = true) l ->
  charset_mem c r = false ->
  k (pos + length l)%nat (r :: rest) caps = Some res ->
  plus_match c pos (l ++ r :: rest) caps k = Some res.
Proof.
  induction l as [|x l IH]; intros pos Hne Hall Hr Hk; [done|].
  apply Forall_cons in Hall as [Hx Hall]. cbn [app plus_match]. rewrite Hx.
  destruct l as [|y l].
  - cbn [app plus_match]. rewrite Hr. by rewrite <- Hk, Nat.add_1_r.
  - rewrite (IH (S pos)); try done.
    rewrite <- Hk. f_equal. cbn [length]. lia.
Qed.

Lemma take_group {A} (l rest : list A) p q :
  q = (p + length l)%nat -> take (q - p) (l ++ rest) = l.
Proof.
  intros ->. replace (p + length l - p)%nat with (length l) by lia.
  apply take_app_length.
Qed.

Lemma suffix_match pos caps k :
  rmatch suffix_re pos dotgit caps k
  = k (pos + 4)%nat [] (<[6%nat := ".git"]> caps).
Proof.
  unfold suffix_re, dotgit. cbn.
  replace (S (pos + 3) - pos)%nat with 4%nat by lia.
  replace (S (pos + 3)) with (pos + 4)%nat by lia. reflexivity.
Qed.

Lemma repo_match pos caps k res P :
  in_class "/." P ->
  k (pos + length P + 4)%nat [] (<[6%nat := ".git"]> (<[5%nat := text P]> caps))
    = Some res ->
  rmatch repo_re pos (P ++ dotgit) caps k = Some res.
Proof.
  intros [HP HPc] Hk. unfold repo_re. cbn [rmatch].
  apply plus_match_greedy; [done..|].
  rewrite take_group by done. fold dotgit. by rewrite suffix_match.
Qed.

Lemma org_match pos caps k res O P :
  in_class "/" O -> in_class "/." P ->
  k (pos + length O + 1 + length P + 4)%nat []
    (<[6%nat := ".git"]> (<[5%nat := text P]> (<[4%nat := text O]> caps)))
    = Some res ->
  rmatch org_re pos (O ++ ["/"%char] :: (P ++ dotgit)) caps k = Some res.
Proof.
  intros [HO HOc] HP Hk. unfold org_re. cbn [rmatch].
  apply plus_match_greedy; [done..|].
  rewrite take_group by done.
  cbn [list_ascii_of_string strip_lit is_char Ascii.eqb Bool.eqb String.length].
  by apply repo_match.
Qed.

Lemma tail_match pos caps k res H sep O P :
  in_class ":|/" H -> in_class "/" O -> in_class "/." P ->
  sep = "/"%char \/ sep = ":"%char ->
  k (pos + length H + 1 + length O + 1 + length P + 4)%nat []
    (<[6%nat := ".git"]> (<[5%nat := text P]> (<[4%nat := text O]>
       (<[3%nat := text H]> caps)))) = Some res ->
  rmatch tail_re pos (H ++ [sep] :: (O ++ ["/"%char] :: (P ++ dotgit))) caps k
  = Some res.
Proof.
  intros [HH HHc] HO HP Hsep Hk. unfold tail_re. cbn [rmatch].
  apply plus_match_greedy; [done|done|by destruct Hsep as [-> | ->]|].
  rewrite take_group by done.
  destruct Hsep as [-> | ->];
    cbn [list_ascii_of_string strip_lit is_char Ascii.eqb Bool.eqb String.length];
    by rewrite (org_match _ _ _ res).
Qed.

Lemma find_scp H O P :
  in_class ":|/" H -> in_class "/" O -> in_class "/." P ->
  exists whole,
    find_from gitregexp 0
      (["g"%char] :: ["i"%char] :: ["t"%char] :: ["@"%char]
         :: (H ++ [":"%char] :: (O ++ ["/"%char] :: (P ++ dotgit))))
    = [whole; ""; "git@"; text H; text O; text P; ".git"].
Proof.
  intros HH HO HP. eexists.
  rewrite gitregexp_parts. cbn [find_from rmatch Nat.eqb]. unfold head_re.
  cbn [rmatch list_ascii_of_string strip_lit is_char Ascii.eqb Bool.eqb String.length].
  erewrite tail_match; [|done..|by right|reflexivity].
  reflexivity.
Qed.

Lemma find_proto proto H O P :
  proto ∈ ["http"; "https"; "git"; "ssh"] ->
  in_class ":|/" H -> in_class "/" O -> in_class "/." P ->
  exists whole,
    find_from gitregexp 0
      ((rune_of <$> list_ascii_of_string (proto +:+ "://"))
         ++ (H ++ ["/"%char] :: (O ++ ["/"%char] :: (P ++ dotgit))))
    = [whole; proto; ""; text H; text O; text P; ".git"].
Proof.
  intros Hproto HH HO HP. rewrite gitregexp_parts.
  repeat (apply elem_of_cons in Hproto as [->|Hproto]);
    [| | | |by apply elem_of_nil in Hproto].
  all: eexists.
  all: match goal with
       | |- context [rune_of <$> ?x] =>
           let y := eval vm_compute in (rune_of <$> x) in
           change (rune_of <$> x) with y
       end; cbn [app].
  all: cbn [find_from rmatch Nat.eqb]; unfold head_re.
  all: cbn [rmatch list_ascii_of_string strip_lit is_char Ascii.eqb Bool.eqb String.length].
  all: erewrite tail_match; [|done..|by left|reflexivity].
  all: reflexivity.
Qed.

(** *** Locators *)

Lemma list_ascii_of_string_app a b :
  list_ascii_of_string (a +:+ b)
  = list_ascii_of_string a ++ list_ascii_of_string b.
Proof.
  induction a as [|c a IH]; [done|].
  change (String c a +:+ b) with (String c (a +:+ b)).
  cbn [list_ascii_of_string app]. by rewrite IH.
Qed.

Lemma runes_runes_l s : runes s = runes_l (list_ascii_of_string s).
Proof. reflexivity. Qed.

Lemma text_runes_l s : text (runes_l (list_ascii_of_string s)) = s.
Proof.
  unfold text. rewrite (concat_runes_l _ _ (Nat.le_refl _)).
  apply string_of_list_ascii_of_string.
Qed.

Lemma part_in_class cs s :
  part cs s = true -> in_class cs (runes_l (list_ascii_of_string s)).
Proof.
  unfold part. intros [Hne Hfree]%andb_prop. split.
  - destruct s as [|b s]; [done|]. cbn [list_ascii_of_string].
    by rewrite runes_l_cons.
  - apply (runes_l_class cs _ _ (Nat.le_refl _)).
    apply Forall_forall. intros b Hb. rewrite forallb_forall in Hfree.
    apply negb_true_iff, Hfree. by apply list_elem_of_In.
Qed.

(** The runes of [host sep org / repo .git]. *)
Lemma runes_l_locator (host org repo : string) sep :
  ascii_byte sep = true ->
  runes_l (list_ascii_of_string
             (host +:+ String sep (org +:+ "/" +:+ repo +:+ ".git")))
  = runes_l (list_ascii_of_string host)
      ++ [sep] :: (runes_l (list_ascii_of_string org)
      ++ ["/"%char] :: (runes_l (list_ascii_of_string repo) ++ dotgit)).
Proof.
  intros Hsep. rewrite list_ascii_of_string_app. cbn [list_ascii_of_string].
  rewrite (runes_l_app_ascii _ _ _ _ (Nat.le_refl _)) by done.
  rewrite list_ascii_of_string_app.
  change (list_ascii_of_string ("/" +:+ repo +:+ ".git"))
    with ("/"%char :: list_ascii_of_string (repo +:+ ".git")).
  rewrite (runes_l_app_ascii _ _ _ _ (Nat.le_refl _)) by done.
  rewrite list_ascii_of_string_app.
  change (list_ascii_of_string ".git")
    with ("."%char :: ["g"%char; "i"%char; "t"%char]).
  by rewrite (runes_l_app_ascii _ _ _ _ (Nat.le_refl _)) by done.
Qed.

Lemma find_from_later rs : forall pos, find_from gitregexp (S pos) rs = [].
Proof.
  induction rs as [|r rs IH]; intros pos; [done|].
  cbn [find_from gitregexp rmatch Nat.eqb]. apply IH.
Qed.

(** C7: the scp-like form [git@host:org/repo.git] becomes
    [ssh://git@host/org/repo.git], remote: the [ssh] protocol, [git@] kept
    before the host, a slash for the colon; a form with a protocol,
    [proto://host/org/repo.git], comes back as it is, remote; a path that
    starts with a slash comes back as it is, local. *)
Theorem C7_normalizeGitUri_forms host org repo :
  part ":|/" host = true -> part "/" org = true -> part "/." repo = true ->
  normalizeGitUri ("git@" +:+ host +:+ ":" +:+ org +:+ "/" +:+ repo +:+ ".git")
  = ("ssh://git@" +:+ host +:+ "/" +:+ org +:+ "/" +:+ repo +:+ ".git", true)
  /\ (forall proto, proto ∈ ["http"; "https"; "git"; "ssh"] ->
        normalizeGitUri
          (proto +:+ "://" +:+ host +:+ "/" +:+ org +:+ "/" +:+ repo +:+ ".git")
        = (proto +:+ "://" +:+ host +:+ "/" +:+ org +:+ "/" +:+ repo +:+ ".git",
           true))
  /\ (forall path, normalizeGitUri ("/" +:+ path) = ("/" +:+ path, false)).
Proof.
  intros Hhost%part_in_class Horg%part_in_class Hrepo%part_in_class.
  split; [|split].
  - unfold normalizeGitUri, FindStringSubmatch. rewrite runes_runes_l.
    change ("git@" +:+ host +:+ ":" +:+ org +:+ "/" +:+ repo +:+ ".git")
      with (String "g" (String "i" (String "t" (String "@"
              (host +:+ String ":" (org +:+ "/" +:+ repo +:+ ".git")))))).
    cbn [list_ascii_of_string]. rewrite !runes_l_ascii by done.
    rewrite runes_l_locator by done.
    destruct (find_scp _ _ _ Hhost Horg Hrepo) as [whole ->].
    rewrite !text_runes_l. reflexivity.
  - intros proto Hproto.
    unfold normalizeGitUri, FindStringSubmatch. rewrite runes_runes_l.
    assert (runes_l (list_ascii_of_string
              (proto +:+ "://" +:+ host +:+ "/" +:+ org +:+ "/" +:+ repo +:+ ".git"))
            = (rune_of <$> list_ascii_of_string (proto +:+ "://"))
                ++ runes_l (list_ascii_of_string
                     (host +:+ String "/" (org +:+ "/" +:+ repo +:+ ".git"))))
      as ->.
    { repeat (apply elem_of_cons in Hproto as [->|Hproto]);
        [| | | |by apply elem_of_nil in Hproto].
      all: match goal with
           | |- context [rune_of <$> ?x] =>
               let y := eval vm_compute in (rune_of <$> x) in
               change (rune_of <$> x) with y
           end; cbn [app].
      all: match goal with
           | |- runes_l (list_ascii_of_string (?p +:+ ?r)) = _ =>
               let y := eval vm_compute in (list_ascii_of_string p) in
               change (list_ascii_of_string (p +:+ r))
                 with (y ++ list_ascii_of_string r)
           end; cbn [app].
      all: rewrite !runes_l_ascii by done; reflexivity. }
    rewrite runes_l_locator by done.
    destruct (find_proto proto _ _ _ Hproto Hhost Horg Hrepo) as [whole ->].
    rewrite !text_runes_l.
    repeat (apply elem_of_cons in Hproto as [->|Hproto]);
      [| | | |by apply elem_of_nil in Hproto]; reflexivity.
  - intros path. unfold normalizeGitUri, FindStringSubmatch.
    rewrite runes_runes_l.
    change ("/" +:+ path) with (String "/" path). cbn [list_ascii_of_string].
    rewrite runes_l_ascii by done.
    cbn [find_from gitregexp rmatch Nat.eqb list_ascii_of_string strip_lit
         is_char Ascii.eqb Bool.eqb].
    by rewrite find_from_later.
Qed.

(** * Concrete sources and repositories *)

(** C2 (the code departs from it): the pattern ends in [(.git)], whose dot
    stands for any character: a source without the suffix [.git] is
    taken for a remote one. *)
Theorem C2_dot_matches_any_character :
  normalizeGitUri "https://host/org/repoXgit"
  = ("https://host/org/repoXgit", true).
Proof. vm_compute. reflexivity. Qed.

(** The class of the host leaves out the bar as well: a source of the
    grammar whose host has one is taken for a local path. *)
Lemma normalizeGitUri_bar_in_host :
  normalizeGitUri "https://a|b/org/repo.git" = ("https://a|b/org/repo.git", false).
Proof. vm_compute. reflexivity. Qed.

(** A commit whose tree cannot be read makes the callback panic when the
    files are asked for, and only then. *)
Lemma commitCallback_tree_error `{GitEngine} (repo : Repository) cm c acc e :
  commit_Tree c = Err e ->
  commitCallback repo true cm c acc = Panics
  /\ commitCallback repo false cm c acc
     = Returns (if cm then acc ++ [messageObject c] else acc, true).
Proof.
  intros Htree. unfold commitCallback. rewrite Htree, message_object_built.
  by destruct cm.
Qed.

(** C5 (the code departs from it): the tip of the sample repository
    [damaged_repo] has a tree that cannot be read.  With the files asked
    for, [objectsFromCommit] does not skip the commit and go on to its
    parent: it panics, and so does [LoadObjects]. *)
Theorem C5_unreadable_tree_panics :
  Ref.r_head Sample.damaged_repo = Ok Sample.cX
  /\ commit_Tree Sample.cX = Err "object not found"
  /\ @objectsFromCommit Sample.git Sample.damaged_repo true true 0 = Panics
  /\ @LoadObjects Sample.git "/home/user/damaged" Sample.both = Panics.
Proof. repeat split; vm_compute; reflexivity. Qed.

(** C6 (the code departs from it): the source [/home/user/damaged] opens,
    and the tip of its history has a tree that cannot be read.  With the
    three flags on, [LoadObjects] returns neither a list nor an error: it
    panics. *)
Theorem C6_damaged_source_returns_nothing :
  @openGitRepo Sample.git "/home/user/damaged"
  = Returns (Ok Sample.damaged_repo)
  /\ commit_Tree Sample.cX = Err "object not found"
  /\ @LoadObjects Sample.git "/home/user/damaged" Sample.both_and_staged
     = Panics
  /\ ~ exists objs err,
       @LoadObjects Sample.git "/home/user/damaged" Sample.both_and_staged
       = Returns (objs, err).
Proof.
  assert (@LoadObjects Sample.git "/home/user/damaged" Sample.both_and_staged
          = Panics) as Hpanics by (vm_compute; reflexivity).
  split; [vm_compute; reflexivity|]. split; [reflexivity|].
  split; [exact Hpanics|]. intros (objs & err & Hret).
  rewrite Hpanics in Hret. discriminate.
Qed.



(** *** Histories of any shape *)








(** Without falling commit times the commits nearest to the tip need not
    be the most recent ones: with a count of 1, [skewed_repo] gives its
    tip, which is older than its root. *)
Lemma skewed_clock_visits_tip :
  @objectsFromCommit Sample.git Sample.skewed_repo false true 1
  = Returns ([messageObject Sample.k2], None)
  /\ commit_Time Sample.k2 < commit_Time Sample.k1.
Proof. split; [vm_compute; reflexivity|reflexivity]. Qed.


(** ** The theorems at work on the sample repositories *)

Lemma C1_witness :
  xorb (CommitFiles (prepareGitLoadOptions Sample.files_and_staged))
       (CommitMessages (prepareGitLoadOptions Sample.files_and_staged)) = true
  /\ @LoadObjects Sample.git "/home/user/widget" Sample.files_and_staged
     = Returns ([stagedObject "conf/key" Sample.blob_k;
                 stagedObject "notes" Sample.blob_b], None).
Proof.
  assert (xorb (CommitFiles (prepareGitLoadOptions Sample.files_and_staged))
            (CommitMessages (prepareGitLoadOptions Sample.files_and_staged))
          = true) as Hone by (vm_compute; reflexivity).
  split; [exact Hone|].
  destruct (@C1_single_history_flag_emits_no_history Sample.git
              "/home/user/widget" Sample.files_and_staged Hone) as [Heq _].
  rewrite Heq. vm_compute. reflexivity.
Defined.


Lemma C4_witness :
  @objectsFromStagedFiles Sample.git Sample.linear_repo
  = ([stagedObject "conf/key" Sample.blob_k; stagedObject "notes" Sample.blob_b],
     None).
Proof.
  destruct (@C4_staged_objects Sample.git Sample.linear_repo Sample.index1
              eq_refl) as [Hall _].
  rewrite Hall.
  - vm_compute. reflexivity.
  - repeat constructor; eexists; vm_compute; reflexivity.
  - repeat constructor; intros _; eexists; vm_compute; reflexivity.
Defined.

Lemma X22_witness :
  @objectsFromCommit Sample.git Sample.no_index_repo true true 0
  = @visit Sample.git Sample.no_index_repo true true
      [Sample.c3; Sample.c2; Sample.c1]
  /\ @LoadObjects Sample.git "/home/user/noindex" Sample.both_and_staged
     = Returns ([], Some "could not read index")
  /\ exists objs err,
       @LoadObjects Sample.git "/home/user/noindex" Sample.both_and_staged
       = Returns (objs, err).
Proof.
  split; [vm_compute; reflexivity|].
  destruct (@X22_load_list_or_error Sample.git "/home/user/noindex"
              Sample.both_and_staged) as (_ & _ & Hdrop & Hreturns).
  split.
  - eapply (Hdrop Sample.no_index_repo _ []); vm_compute; reflexivity.
  - apply (Hreturns Sample.no_index_repo); [vm_compute; reflexivity|].
    intros commits Hwalked.
    assert (@walked Sample.git Sample.no_index_repo
              (CommitCount (prepareGitLoadOptions Sample.both_and_staged))
            = Some [Sample.c3; Sample.c2; Sample.c1]) as Hall
      by (vm_compute; reflexivity).
    rewrite Hall in Hwalked. injection Hwalked as <-.
    repeat constructor; eexists; reflexivity.
Defined.

Lemma C8_witness :
  exists objs,
    @LoadObjects Sample.git "/home/user/widget" Sample.both_and_staged
    = Returns (objs, None)
    /\ length objs = 9%nat
    /\ Forall (fun o => (exists c, has_meta "commit" (commit_Id c) o)
                        \/ has_meta "status" "staged" o) objs.
Proof.
  eexists. split; [vm_compute; reflexivity|]. split; [reflexivity|].
  apply (proj2 (proj2 (proj2 (@C8_objects_carry_provenance Sample.git)))
           "/home/user/widget" Sample.both_and_staged _ None).
  vm_compute. reflexivity.
Defined.

Lemma C9_witness :
  @openGitRepo Sample.git "git@github.com:acme/widget.git"
  = Returns (Ok Sample.linear_repo)
  /\ @LoadObjects Sample.git "git@github.com:acme/widget.git" ∅
     = Returns ([], None).
Proof.
  assert (@openGitRepo Sample.git "git@github.com:acme/widget.git"
          = Returns (Ok Sample.linear_repo)) as Hopen
    by (vm_compute; reflexivity).
  split; [exact Hopen|].
  refine (proj2 (@C9_no_flag_returns_empty Sample.git _ ∅ _ _ _)
            Sample.linear_repo Hopen); reflexivity.
Defined.


Lemma C7_witness :
  normalizeGitUri "git@github.com:acme/widget.git"
  = ("ssh://git@github.com/acme/widget.git", true)
  /\ normalizeGitUri "https://github.com/acme/widget.git"
     = ("https://github.com/acme/widget.git", true)
  /\ normalizeGitUri "/home/user/widget" = ("/home/user/widget", false).
Proof.
  destruct (C7_normalizeGitUri_forms "github.com" "acme" "widget"
              eq_refl eq_refl eq_refl) as (Hscp & Hproto & Hpath).
  split; [exact Hscp|]. split.
  - apply (Hproto "https"). apply list_elem_of_In. cbn. auto.
  - exact (Hpath "home/user/widget").
Defined.

(** * Further properties of the package *)

(** ** The options

    Only the four keys are read. *)
Lemma prepareGitLoadOptions_ext (o o' : gmap string GoValue) :
  (forall k, k ∈ option_keys -> o !! k = o' !! k) ->
  prepareGitLoadOptions o = prepareGitLoadOptions o'.
Proof.
  intros Hkeys. unfold prepareGitLoadOptions.
  rewrite !Hkeys; [done|unfold option_keys; set_solver..].
Qed.

(** X1: a key the package does not read changes nothing: the options
    are those of the map without it. *)
Theorem X1_unrelated_keys_ignored (o : gmap string GoValue) k v :
  k ∉ option_keys ->
  prepareGitLoadOptions (<[k := v]> o) = prepareGitLoadOptions o.
Proof.
  intros Hk. apply prepareGitLoadOptions_ext. intros k' Hk'.
  apply lookup_insert_ne. by intros ->.
Qed.

(** X2: every set of options is the reading of a map: the map that holds
    the four fields under their keys reads back as the options. *)
Theorem X2_options_round_trip opt :
  prepareGitLoadOptions (optionsMap opt) = opt.
Proof.
  assert (optionsMap opt !! "commit-files" = Some (VBool (CommitFiles opt))
          /\ optionsMap opt !! "commit-messages"
             = Some (VBool (CommitMessages opt))
          /\ optionsMap opt !! "staged-files" = Some (VBool (StagedFiles opt))
          /\ optionsMap opt !! "commit-count" = Some (VInt (CommitCount opt)))
    as (Hf & Hm & Hs & Hc) by (unfold optionsMap; by simplify_map_eq).
  unfold prepareGitLoadOptions. rewrite Hf, Hm, Hs, Hc. cbn.
  by destruct opt.
Qed.

(** X3: a value of the wrong type is no value: a flag that does not hold
    a boolean, or a count that does not hold an integer, reads as the key
    being absent. *)
Theorem X3_ill_typed_value_is_no_value (o : gmap string GoValue) k v :
  (k ∈ ["commit-files"; "commit-messages"; "staged-files"] /\ is_bool v = false)
  \/ (k = "commit-count" /\ is_int v = false) ->
  prepareGitLoadOptions (<[k := v]> o) = prepareGitLoadOptions (delete k o).
Proof.
  intros Hbad.
  assert (forall k', as_bool (<[k := v]> o !! k') = as_bool (delete k o !! k')
                     \/ k' = "commit-count") as Hb.
  { intros k'. destruct (decide (k = k')) as [<-|Hne].
    - rewrite lookup_insert_eq, lookup_delete_eq.
      destruct Hbad as [[_ Hv]|[-> _]]; [left; by destruct v|by right].
    - left. by rewrite lookup_insert_ne, lookup_delete_ne. }
  assert (as_int (<[k := v]> o !! "commit-count")
          = as_int (delete k o !! "commit-count")) as Hi.
  { destruct (decide (k = "commit-count")) as [->|Hne].
    - rewrite lookup_insert_eq, lookup_delete_eq.
      destruct Hbad as [[Hk _]|[_ Hv]]; [|by destruct v].
      rewrite !elem_of_cons, elem_of_nil in Hk.
      by destruct Hk as [?|[?|[?|[]]]].
    - by rewrite lookup_insert_ne, lookup_delete_ne. }
  unfold prepareGitLoadOptions. rewrite Hi.
  destruct (Hb "commit-files") as [->|?]; [|done].
  destruct (Hb "commit-messages") as [->|?]; [|done].
  destruct (Hb "staged-files") as [->|?]; [|done].
  done.
Qed.
(** ** The commit walk in closed form *)

Section HistoryFacts.

Context `{GitEngine}.

Implicit Types (repo : Repository).

Lemma treeCallback_entry repo c base e acc :
  treeCallback repo c base e acc = (acc ++ entryObjects repo c (base, e), 0).
Proof.
  unfold treeCallback, entryObjects. cbn [fst snd].
  destruct (te_Type e); cbn [ObjectType_eqb]; rewrite ?app_nil_r; try done.
  destruct (repo_LookupBlob repo (te_Id e)) as [blob|]; [|by rewrite app_nil_r].
  by rewrite file_object_built.
Qed.

Lemma walk_node_files repo c : forall n base acc,
  walk_node (treeCallback repo c) base n acc
  = (acc ++ flat_map (entryObjects repo c) (treeFiles base n), false).
Proof.
  induction n as [e kids IH] using TreeNode_induction. intros base acc.
  rewrite walk_node_unfold, treeCallback_entry. cbn [Z.ltb Z.compare].
  cbn [treeFiles flat_map]. rewrite app_assoc.
  generalize (acc ++ entryObjects repo c (base, e)).
  generalize (base +:+ te_Name e +:+ "/").
  induction IH as [|k kids Hk _ IHkids]; intros base' acc'.
  - cbn. by rewrite app_nil_r.
  - cbn [walk_nodes flat_map]. rewrite Hk, IHkids.
    by rewrite flat_map_app, app_assoc.
Qed.

Lemma Tree_Walk_files repo c (t : Tree) acc :
  Tree_Walk (treeCallback repo c) t acc
  = acc ++ flat_map (entryObjects repo c) (treeEntries t).
Proof.
  unfold Tree_Walk, treeEntries. generalize "". revert acc.
  induction t as [|k t IH]; intros acc base.
  - cbn. by rewrite app_nil_r.
  - cbn [walk_nodes flat_map]. rewrite walk_node_files, IH.
    by rewrite flat_map_app, app_assoc.
Qed.

Lemma commitCallback_objects repo cf cm c acc :
  commitCallback repo cf cm c acc =
    if cf && unreadable c then Panics
    else Returns (acc ++ commitObjects repo cf cm c, true).
Proof.
  unfold commitCallback, commitObjects, unreadable.
  rewrite message_object_built. destruct cf; cbn [andb].
  - destruct (commit_Tree c) as [t|]; [|done].
    rewrite Tree_Walk_files. destruct cm; by rewrite ?app_nil_r, <- ?app_assoc.
  - destruct cm; by rewrite ?app_nil_r.
Qed.

Lemma Iterate_objects repo cf cm commits last : forall acc,
  Iterate (commitCallback repo cf cm) commits last acc =
    if cf && existsb unreadable commits then Panics
    else Returns (acc ++ flat_map (commitObjects repo cf cm) commits, last).
Proof.
  induction commits as [|c commits IH]; intros acc; cbn [Iterate existsb flat_map].
  - by rewrite andb_false_r, app_nil_r.
  - rewrite commitCallback_objects.
    destruct cf; cbn [andb]; [destruct (unreadable c); cbn [orb obind]; [done|]|];
      cbn [obind]; by rewrite IH, app_assoc.
Qed.

(** The outcome of [objectsFromCommit] from the walk it sets up. *)
Lemma objectsFromCommit_outcome repo cf cm count :
  objectsFromCommit repo cf cm count =
    match walkOutcome repo count with
    | Err err => Returns ([], Some err)
    | Ok (commits, last) =>
        if cf && existsb unreadable commits then Panics
        else match last with
             | Some err => Returns ([], Some err)
             | None =>
                 Returns (flat_map (commitObjects repo cf cm) commits, None)
             end
    end.
Proof.
  unfold objectsFromCommit, walkOutcome.
  destruct (repo_Walk repo) as [walk|]; [|done].
  destruct (if (0 <? count)%Z then _ else _) as [w [e|]]; [done|].
  destruct (walk_Commits _) as [commits last]. rewrite Iterate_objects.
  destruct (cf && existsb unreadable commits); [done|]. cbn [obind app].
  by destruct last.
Qed.
End HistoryFacts.
(** ** The commit history extractor, case by case *)

Section More.

Context `{GitEngine}.

Implicit Types (repo : Repository).

Lemma unreadable_spec c : unreadable c = true <-> ~ tree_readable c.
Proof.
  unfold unreadable, tree_readable. destruct (commit_Tree c) as [t|e].
  - split; [done|]. intros Hno. destruct Hno. eauto.
  - split; [|done]. by intros _ [t ?].
Qed.

Lemma existsb_unreadable commits :
  existsb unreadable commits = true
  <-> exists c, c ∈ commits /\ ~ tree_readable c.
Proof.
  rewrite existsb_exists. split.
  - intros (c & Hin & Hc). exists c.
    split; [by apply list_elem_of_In|by apply unreadable_spec].
  - intros (c & Hin & Hc). exists c.
    split; [by apply list_elem_of_In|by apply unreadable_spec].
Qed.

Lemma readable_no_panic cf commits :
  cf = false \/ Forall tree_readable commits ->
  cf && existsb unreadable commits = false.
Proof.
  intros [-> |Hall]; [done|]. apply andb_false_intro2.
  apply not_true_is_false. intros (c & Hin & Hc)%existsb_unreadable.
  rewrite Forall_forall in Hall. by apply Hc, Hall.
Qed.

(** X4: when the walk is set up and runs to its regular end, and the tree
    of every commit can be read (or the files are not asked for), the
    commit history extractor returns, without an error, the objects of the
    commits in the order of the walk: for each commit its message, when
    messages are asked for, and then one object per blob entry of its tree
    whose blob the repository holds, in the order of the tree walk, when
    files are asked for. *)
Theorem X4_history_objects repo cf cm count commits :
  walkOutcome repo count = Ok (commits, None) ->
  cf = false \/ Forall tree_readable commits ->
  objectsFromCommit repo cf cm count
  = Returns (flat_map (commitObjects repo cf cm) commits, None).
Proof.
  intros Hwalk Hok. rewrite objectsFromCommit_outcome, Hwalk.
  by rewrite readable_no_panic.
Qed.

(** X5: the commit history extractor panics exactly when files are asked
    for, the walk could be set up, and the tree of one of the commits the
    walk hands out cannot be read. *)
Theorem X5_history_panics_iff repo cf cm count :
  objectsFromCommit repo cf cm count = Panics <->
  cf = true
  /\ exists commits last,
       walkOutcome repo count = Ok (commits, last)
       /\ exists c, c ∈ commits /\ ~ tree_readable c.
Proof.
  rewrite objectsFromCommit_outcome.
  destruct (walkOutcome repo count) as [[commits last]|e].
  - destruct cf; cbn [andb].
    + destruct (existsb unreadable commits) eqn:Hex.
      * split; [intros _|done]. split; [done|]. exists commits, last.
        split; [done|]. by apply existsb_unreadable.
      * split; [by destruct last|].
        intros (_ & commits' & last' & [= <- <-] & Hc).
        apply existsb_unreadable in Hc. congruence.
    + split; [by destruct last|]. by intros [? _].
  - split; [done|]. by intros (_ & ? & ? & ? & _).
Qed.

(** X6: when the walk breaks off with an error, the objects collected so
    far are dropped: the extractor returns the nil list and that error. *)
Theorem X6_history_walk_error_discards repo cf cm count commits err :
  walkOutcome repo count = Ok (commits, Some err) ->
  cf = false \/ Forall tree_readable commits ->
  objectsFromCommit repo cf cm count = Returns ([], Some err).
Proof.
  intros Hwalk Hok. rewrite objectsFromCommit_outcome, Hwalk.
  by rewrite readable_no_panic.
Qed.

Lemma commitObjects_messages repo commits :
  flat_map (commitObjects repo false true) commits = messageObject <$> commits.
Proof.
  induction commits as [|c commits IH]; [done|].
  cbn [flat_map fmap list_fmap]. rewrite IH. unfold commitObjects at 1.
  by rewrite app_nil_r.
Qed.

(** X7: with messages alone asked for, the extractor returns one
    commit-message object per commit of the walk, in the order of the
    walk, whether the trees of the commits can be read or not. *)
Theorem X7_history_messages_only repo count commits :
  walkOutcome repo count = Ok (commits, None) ->
  objectsFromCommit repo false true count
  = Returns (messageObject <$> commits, None).
Proof.
  intros Hwalk. rewrite objectsFromCommit_outcome, Hwalk. cbn [andb].
  by rewrite commitObjects_messages.
Qed.

(** X8: the errors of the set-up of the walk are returned with the nil
    list: the error of [repo.Walk]; for a positive count the error of
    [PushHead], when both [PushRange] and [PushHead] fail (the error of
    [PushRange] is not reported); for any other count the error of
    [PushHead]. *)
Theorem X8_history_setup_errors repo cf cm count :
  (forall err, repo_Walk repo = Err err ->
     objectsFromCommit repo cf cm count = Returns ([], Some err))
  /\ (forall walk w1 w2 e1 e2,
        repo_Walk repo = Ok walk -> 0 < count ->
        walk_PushRange walk ("HEAD~" +:+ sprintf_d count +:+ "..HEAD")
        = (w1, Some e1) ->
        walk_PushHead w1 = (w2, Some e2) ->
        objectsFromCommit repo cf cm count = Returns ([], Some e2))
  /\ (forall walk w e,
        repo_Walk repo = Ok walk -> count <= 0 ->
        walk_PushHead walk = (w, Some e) ->
        objectsFromCommit repo cf cm count = Returns ([], Some e)).
Proof.
  repeat split.
  - intros err Hw. unfold objectsFromCommit. by rewrite Hw.
  - intros walk w1 w2 e1 e2 Hw Hcount Hrange Hhead.
    unfold objectsFromCommit. rewrite Hw.
    destruct (Z.ltb_spec 0 count); [|lia]. by rewrite Hrange, Hhead.
  - intros walk w e Hw Hcount Hhead.
    unfold objectsFromCommit. rewrite Hw.
    destruct (Z.ltb_spec 0 count); [lia|]. by rewrite Hhead.
Qed.

Lemma entryObjects_elem repo c base e o :
  o ∈ entryObjects repo c (base, e)
  <-> te_Type e = ObjectBlob
      /\ exists blob, repo_LookupBlob repo (te_Id e) = Ok blob
                      /\ o = fileObject c base e blob.
Proof.
  unfold entryObjects. cbn [fst snd]. split.
  - destruct (te_Type e); try by intros ?%elem_of_nil.
    destruct (repo_LookupBlob repo (te_Id e)) as [blob|];
      [|by intros ?%elem_of_nil].
    intros ->%list_elem_of_singleton. eauto.
  - intros [-> (blob & -> & ->)]. by apply list_elem_of_singleton.
Qed.

Lemma commitObjects_elem repo cf cm commits o :
  o ∈ flat_map (commitObjects repo cf cm) commits
  <-> (cm = true /\ exists c, c ∈ commits /\ o = messageObject c)
      \/ (cf = true /\ file_of repo commits o).
Proof.
  rewrite list_elem_of_In, in_flat_map. split.
  - intros (c & Hc%list_elem_of_In & Ho%list_elem_of_In).
    unfold commitObjects in Ho. apply elem_of_app in Ho as [Hm|Hf].
    + destruct cm; [|by apply elem_of_nil in Hm].
      apply list_elem_of_singleton in Hm. left. eauto.
    + destruct cf; [|by apply elem_of_nil in Hf].
      destruct (commit_Tree c) as [t|] eqn:Ht; [|by apply elem_of_nil in Hf].
      apply list_elem_of_In, in_flat_map in Hf
        as ([base e] & Hin%list_elem_of_In & Ho%list_elem_of_In).
      apply entryObjects_elem in Ho as [Hty (blob & Hb & ->)].
      right. split; [done|]. by exists c, t, base, e, blob.
  - intros [[-> (c & Hc & ->)]
           |[-> (c & t & base & e & blob & Hc & Ht & Hin & Hty & Hb & ->)]];
      exists c; (split; [by apply list_elem_of_In|]);
      apply list_elem_of_In; unfold commitObjects; apply elem_of_app.
    + left. by apply list_elem_of_singleton.
    + right. rewrite Ht. apply list_elem_of_In, in_flat_map.
      exists (base, e). split; [by apply list_elem_of_In|].
      apply list_elem_of_In, entryObjects_elem. eauto.
Qed.

(** X9: what the objects of the commit history are: when the extractor
    returns a list, an object is in it exactly when it is the message
    object of a commit of the walk (messages asked for), or the file
    object of a blob entry of the tree of a commit of the walk whose blob
    the repository holds (files asked for).  An entry that is not a blob
    and a blob that cannot be found leave no object and no error. *)
Theorem X9_history_membership repo cf cm count commits last objs o :
  walkOutcome repo count = Ok (commits, last) ->
  objectsFromCommit repo cf cm count = Returns (objs, None) ->
  o ∈ objs
  <-> (cm = true /\ exists c, c ∈ commits /\ o = messageObject c)
      \/ (cf = true /\ file_of repo commits o).
Proof.
  intros Hwalk. rewrite objectsFromCommit_outcome, Hwalk.
  destruct (cf && existsb unreadable commits); [done|].
  destruct last as [err|]; [done|]. intros [= <-].
  apply commitObjects_elem.
Qed.

(** ** The staged change extractor, error by error *)

(** The loop passes over a run of entries whose statuses and blobs are
    there. *)
Lemma stagedLoop_skip repo index : forall pre before after n acc,
  index = before ++ pre ++ after ->
  Forall (status_known repo) pre -> Forall (blob_known repo) pre ->
  stagedLoop repo index (length pre + n) (length before) acc
  = stagedLoop repo index n (length (before ++ pre))
      (acc ++ stagedObjects repo pre).
Proof.
  induction pre as [|e pre IH]; intros before after n acc Hindex Hstatus Hblob.
  - by rewrite !app_nil_r.
  - apply Forall_cons in Hstatus as [[status Hst] Hstatus].
    apply Forall_cons in Hblob as [Hb Hblob].
    cbn [length Nat.add stagedLoop].
    rewrite Hindex. cbn [app]. rewrite EntryByIndex_middle.
    change (before ++ e :: pre ++ after) with (before ++ (e :: pre) ++ after).
    rewrite <- Hindex, Hst, stagedObjects_cons.
    unfold blob_known, changed, blob_of in *. rewrite Hst in *.
    assert (index = (before ++ [e]) ++ pre ++ after) as Hindex'
      by by rewrite <- app_assoc.
    assert (S (length before) = length (before ++ [e])) as ->
      by (rewrite length_app; cbn; lia).
    replace (before ++ e :: pre) with ((before ++ [e]) ++ pre)
      by by rewrite <- app_assoc.
    destruct (negb (status =? StatusCurrent)%Z).
    + destruct (Hb eq_refl) as [blob ->]. rewrite staged_object_built.
      rewrite (IH _ _ _ _ Hindex' Hstatus Hblob).
      by rewrite <- (app_assoc acc).
    + apply (IH _ _ _ _ Hindex' Hstatus Hblob).
Qed.

(** X10: the staged change extractor stops at the first entry whose status
    or blob is missing: when every entry before [e] has its status and,
    where it is asked for, its blob, an error of [StatusFile] on [e], or an
    error of [LookupBlob] on a changed [e], is returned with the nil list;
    the objects of the entries before [e] are dropped and no entry behind
    [e] is looked at. *)
Theorem X10_staged_first_error repo index pre e l :
  repo_Index repo = Ok index ->
  index = pre ++ e :: l ->
  Forall (status_known repo) pre -> Forall (blob_known repo) pre ->
  (forall err, repo_StatusFile repo (ie_Path e) = Err err ->
     objectsFromStagedFiles repo = ([], Some err))
  /\ (forall err, changed repo e = true ->
        repo_LookupBlob repo (ie_Id e) = Err err ->
        objectsFromStagedFiles repo = ([], Some err)).
Proof.
  intros Hindex -> Hstatus Hblob. unfold objectsFromStagedFiles.
  rewrite Hindex. unfold EntryCount.
  assert (length (pre ++ e :: l) = (length pre + S (length l))%nat) as ->
    by by rewrite length_app.
  rewrite (stagedLoop_skip repo _ pre [] (e :: l) _ [] eq_refl Hstatus Hblob).
  cbn [stagedLoop app]. rewrite EntryByIndex_middle.
  split.
  - by intros err ->.
  - intros err Hch Hb. unfold changed in Hch.
    destruct (repo_StatusFile repo (ie_Path e)) as [status|]; [|done].
    by rewrite Hch, Hb.
Qed.

(** X11: an index whose entries all have the status [StatusCurrent] gives
    no object and no error; no blob is looked up. *)
Theorem X11_staged_all_current repo index :
  repo_Index repo = Ok index ->
  Forall (fun e => repo_StatusFile repo (ie_Path e) = Ok StatusCurrent) index ->
  objectsFromStagedFiles repo = ([], None).
Proof.
  intros Hindex Hcur. unfold objectsFromStagedFiles. rewrite Hindex.
  unfold EntryCount.
  assert (stagedLoop repo index (length index) 0 []
          = ([] ++ stagedObjects repo index, None)) as ->.
  { apply (stagedLoop_complete repo index index []); [done| |].
    - eapply Forall_impl; [exact Hcur|]. intros e He. by exists StatusCurrent.
    - eapply Forall_impl; [exact Hcur|]. intros e He.
      unfold blob_known, changed. by rewrite He. }
  cbn [app]. f_equal. unfold stagedObjects.
  rewrite filter_none; [done|]. apply Forall_forall. intros e He.
  rewrite Forall_forall in Hcur. unfold changed. by rewrite (Hcur e He).
Qed.

(** ** The whole of [LoadObjects] *)

(** X12: with the three flags on, a repository that opens, a walk that
    runs to its regular end over commits whose trees can be read, and an
    index whose statuses and blobs are there, [LoadObjects] returns the
    objects of the commits, in the order of the walk, and behind them the
    objects of the staged changes, in the order of the index. *)
Theorem X12_load_all source opta repo commits index :
  openGitRepo source = Returns (Ok repo) ->
  CommitFiles (prepareGitLoadOptions opta) = true ->
  CommitMessages (prepareGitLoadOptions opta) = true ->
  StagedFiles (prepareGitLoadOptions opta) = true ->
  walkOutcome repo (CommitCount (prepareGitLoadOptions opta))
  = Ok (commits, None) ->
  Forall tree_readable commits ->
  repo_Index repo = Ok index ->
  Forall (status_known repo) index -> Forall (blob_known repo) index ->
  LoadObjects source opta
  = Returns (flat_map (commitObjects repo true true) commits
               ++ stagedObjects repo index, None).
Proof.
  intros Hopen Hf Hm Hs Hwalk Hread Hindex Hstatus Hblob.
  unfold LoadObjects. rewrite Hopen. cbn [obind]. rewrite Hf, Hm, Hs.
  cbn [andb]. rewrite objectsFromCommit_outcome, Hwalk.
  rewrite readable_no_panic by by right.
  cbn [obind app]. unfold objectsFromStagedFiles. rewrite Hindex.
  unfold EntryCount.
  assert (stagedLoop repo index (length index) 0 []
          = ([] ++ stagedObjects repo index, None)) as ->
    by exact (stagedLoop_complete repo index index [] [] eq_refl Hstatus Hblob).
  done.
Qed.

Lemma staged_step_returns repo (staged : bool) objectList :
  (if staged then
     let '(objectListStagedFiles, err) := objectsFromStagedFiles repo in
     match err with
     | Some err => Returns ([], Some err)
     | None => Returns (objectList ++ objectListStagedFiles, None)
     end
   else Returns (objectList, None)) <> Panics.
Proof.
  destruct staged; [|done].
  by destruct (objectsFromStagedFiles repo) as [l [e|]].
Qed.

(** X13: [LoadObjects] panics exactly when opening the source panics, or
    the source opens, both history flags are on, and the walk hands out a
    commit whose tree cannot be read.  Reading the options and the staged
    changes never panic. *)
Theorem X13_load_panics_iff source opta :
  LoadObjects source opta = Panics <->
  openGitRepo source = Panics
  \/ exists repo commits last,
       openGitRepo source = Returns (Ok repo)
       /\ CommitFiles (prepareGitLoadOptions opta) = true
       /\ CommitMessages (prepareGitLoadOptions opta) = true
       /\ walkOutcome repo (CommitCount (prepareGitLoadOptions opta))
          = Ok (commits, last)
       /\ exists c, c ∈ commits /\ ~ tree_readable c.
Proof.
  unfold LoadObjects.
  destruct (openGitRepo source) as [[repo|e]|]; cbn [obind].
  - destruct (CommitFiles (prepareGitLoadOptions opta)) eqn:Hf;
      [destruct (CommitMessages (prepareGitLoadOptions opta)) eqn:Hm|];
      cbn [andb].
    + rewrite objectsFromCommit_outcome.
      destruct (walkOutcome repo _) as [[commits last]|e] eqn:Hwalk.
      * cbn [andb]. destruct (existsb unreadable commits) eqn:Hex.
        -- split; [intros _|done]. right. exists repo, commits, last.
           repeat (split; [done|]). by apply existsb_unreadable.
        -- split.
           ++ destruct last; cbn [obind]; [done|].
              intros Hp. by apply staged_step_returns in Hp.
           ++ intros [?|(r & cs & l & [= <-] & _ & _ & Hw & Hc)]; [done|].
              rewrite Hwalk in Hw. injection Hw as <- <-.
              apply existsb_unreadable in Hc. congruence.
      * cbn [obind]. split; [done|].
        intros [?|(r & cs & l & [= <-] & _ & _ & Hw & _)]; [done|].
        by rewrite Hwalk in Hw.
    + split; [intros Hp; by apply staged_step_returns in Hp|].
      by intros [?|(r & cs & l & _ & _ & ? & _)].
    + split; [intros Hp; by apply staged_step_returns in Hp|].
      by intros [?|(r & cs & l & _ & ? & _)].
  - split; [done|]. by intros [?|(r & cs & l & ? & _)].
  - split; [by left|done].
Qed.

Lemma commitObjects_well_typed repo cf cm commits :
  Forall well_typed (flat_map (commitObjects repo cf cm) commits).
Proof.
  apply Forall_forall. intros o Ho. apply commitObjects_elem in Ho
    as [[_ (c & _ & ->)]|[_ (c & t & base & e & blob & _ & _ & _ & _ & _ & ->)]];
    split; cbn; auto.
Qed.

Lemma staged_well_typed repo objs err :
  objectsFromStagedFiles repo = (objs, err) ->
  err = None -> Forall well_typed objs.
Proof.
  intros Hst ->. apply objectsFromStagedFiles_objects in Hst.
  eapply Forall_impl; [exact Hst|]. intros o (path & blob & ->).
  split; cbn; auto.
Qed.

(** X14: every object [LoadObjects] returns has the type
    [seekret-source-git] and the subtype [commit-message] or
    [file-content]. *)
Theorem X14_load_well_typed source opta objs err :
  LoadObjects source opta = Returns (objs, err) -> Forall well_typed objs.
Proof.
  unfold LoadObjects.
  destruct (openGitRepo source) as [[repo|e]|]; cbn [obind];
    [|intros [= <- <-]; constructor|done].
  assert (forall history,
            Forall well_typed history ->
            (if StagedFiles (prepareGitLoadOptions opta) then
               let '(objectListStagedFiles, err) := objectsFromStagedFiles repo in
               match err with
               | Some err => Returns ([], Some err)
               | None => Returns (history ++ objectListStagedFiles, None)
               end
             else Returns (history, None)) = Returns (objs, err) ->
            Forall well_typed objs) as Hstaged.
  { intros history Hh. destruct (StagedFiles _); [|by intros [= <- <-]].
    destruct (objectsFromStagedFiles repo) as [l [e|]] eqn:Hst.
    - intros [= <- <-]. constructor.
    - intros [= <- <-]. apply Forall_app. split; [done|].
      by apply (staged_well_typed repo l None). }
  destruct (CommitFiles _ && CommitMessages _) eqn:Hflags.
  - apply andb_prop in Hflags as [-> ->]. rewrite objectsFromCommit_outcome.
    destruct (walkOutcome repo _) as [[commits last]|e];
      [|intros [= <- <-]; constructor].
    destruct (true && existsb unreadable commits); [done|].
    destruct last; cbn [obind]; [intros [= <- <-]; constructor|].
    cbn [app]. apply Hstaged, commitObjects_well_typed.
  - apply (Hstaged []). constructor.
Qed.

End More.

Lemma suffix_match_any pos caps k (x : rune) :
  charset_mem AnyChar x = true ->
  rmatch suffix_re pos [x; ["g"%char]; ["i"%char]; ["t"%char]] caps k
  = k (pos + 4)%nat []
      (<[6%nat := text [x; ["g"%char]; ["i"%char]; ["t"%char]]]> caps).
Proof.
  intros Hx. unfold suffix_re. cbn [rmatch]. rewrite Hx.
  cbn [list_ascii_of_string strip_lit is_char Ascii.eqb Bool.eqb String.length].
  replace (S pos + 3 - pos)%nat with 4%nat by lia.
  replace (S pos + 3)%nat with (pos + 4)%nat by lia. reflexivity.
Qed.

Lemma strip_lit_length l : forall s t,
  strip_lit l s = Some t -> length s = (length l + length t)%nat.
Proof.
  induction l as [|c l IH]; intros s t; cbn [strip_lit].
  - by intros [= ->].
  - destruct s as [|r s]; [done|]. destruct (is_char c r); [|done].
    intros Hs%IH. cbn [length]. lia.
Qed.

(** The end of the pattern takes four runes, no more and no less. *)
Lemma suffix_none pos caps k s :
  length s <> 4%nat -> rmatch suffix_re pos s caps k = None.
Proof.
  intros Hlen. unfold suffix_re. cbn [rmatch].
  destruct s as [|x s]; [done|]. destruct (charset_mem AnyChar x); [|done].
  destruct (strip_lit _ s) as [t|] eqn:Hs; [|done].
  apply strip_lit_length in Hs.
  change (length (list_ascii_of_string "git")) with 3%nat in Hs.
  cbn [length] in Hlen. destruct t; [cbn [length] in Hs; lia|done].
Qed.

Lemma plus_match_none c caps k : forall s pos,
  (forall l1 rest1, s = l1 ++ rest1 -> l1 <> [] ->
     k (pos + length l1)%nat rest1 caps = None) ->
  plus_match c pos s caps k = None.
Proof.
  induction s as [|r s IH]; intros pos Hk; [done|]. cbn [plus_match].
  destruct (charset_mem c r); [|done].
  rewrite IH.
  - rewrite <- (Hk [r] s); [|done..]. f_equal. cbn. lia.
  - intros l1 rest1 -> Hl1.
    rewrite <- (Hk (r :: l1) rest1); [|done..]. f_equal. cbn. lia.
Qed.

(** The greedy search settles on the longest run behind which the rest of
    the pattern matches. *)
Lemma plus_match_longest c rest caps k res : forall l pos,
  l <> [] ->
  Forall (fun x => charset_mem c x = true) l ->
  k (pos + length l)%nat rest caps = Some res ->
  (forall l1 rest1, rest = l1 ++ rest1 -> l1 <> [] ->
     k (pos + length l + length l1)%nat rest1 caps = None) ->
  plus_match c pos (l ++ rest) caps k = Some res.
Proof.
  induction l as [|x l IH]; intros pos Hne Hall Hk Hlonger; [done|].
  apply Forall_cons in Hall as [Hx Hall]. cbn [app plus_match]. rewrite Hx.
  destruct l as [|y l].
  - cbn [app]. rewrite plus_match_none.
    + rewrite <- Hk. f_equal. cbn. lia.
    + intros l1 rest1 Hsplit Hl1.
      rewrite <- (Hlonger l1 rest1 Hsplit Hl1). f_equal. cbn. lia.
  - rewrite (IH (S pos)); try done.
    + rewrite <- Hk. f_equal. cbn [length]. lia.
    + intros l1 rest1 Hsplit Hl1.
      rewrite <- (Hlonger l1 rest1 Hsplit Hl1). f_equal. cbn [length]. lia.
Qed.

Lemma repo_match_any pos caps k res P (x : rune) :
  in_class "/." P -> charset_mem AnyChar x = true ->
  k (pos + length P + 4)%nat []
    (<[6%nat := text [x; ["g"%char]; ["i"%char]; ["t"%char]]]>
       (<[5%nat := text P]> caps)) = Some res ->
  rmatch repo_re pos (P ++ [x; ["g"%char]; ["i"%char]; ["t"%char]]) caps k
  = Some res.
Proof.
  intros [HP HPc] Hx Hk. unfold repo_re. cbn [rmatch].
  apply plus_match_longest; [done..| |].
  - rewrite take_group by done. by rewrite suffix_match_any.
  - intros l1 rest1 Hsplit Hl1. apply suffix_none.
    apply (f_equal length) in Hsplit. rewrite length_app in Hsplit.
    cbn [length] in Hsplit. destruct l1; [done|cbn [length] in Hsplit; lia].
Qed.

Lemma org_match_any pos caps k res O P (x : rune) :
  in_class "/" O -> in_class "/." P -> charset_mem AnyChar x = true ->
  k (pos + length O + 1 + length P + 4)%nat []
    (<[6%nat := text [x; ["g"%char]; ["i"%char]; ["t"%char]]]>
       (<[5%nat := text P]> (<[4%nat := text O]> caps))) = Some res ->
  rmatch org_re pos
    (O ++ ["/"%char] :: (P ++ [x; ["g"%char]; ["i"%char]; ["t"%char]])) caps k
  = Some res.
Proof.
  intros [HO HOc] HP Hx Hk. unfold org_re. cbn [rmatch].
  apply plus_match_greedy; [done..|].
  rewrite take_group by done.
  cbn [list_ascii_of_string strip_lit is_char Ascii.eqb Bool.eqb String.length].
  by apply repo_match_any.
Qed.

Lemma tail_match_any pos caps k res H sep O P (x : rune) :
  in_class ":|/" H -> in_class "/" O -> in_class "/." P ->
  sep = "/"%char \/ sep = ":"%char -> charset_mem AnyChar x = true ->
  k (pos + length H + 1 + length O + 1 + length P + 4)%nat []
    (<[6%nat := text [x; ["g"%char]; ["i"%char]; ["t"%char]]]>
       (<[5%nat := text P]> (<[4%nat := text O]> (<[3%nat := text H]> caps))))
    = Some res ->
  rmatch tail_re pos
    (H ++ [sep] :: (O ++ ["/"%char]
       :: (P ++ [x; ["g"%char]; ["i"%char]; ["t"%char]]))) caps k
  = Some res.
Proof.
  intros [HH HHc] HO HP Hsep Hx Hk. unfold tail_re. cbn [rmatch].
  apply plus_match_greedy; [done|done|by destruct Hsep as [-> | ->]|].
  rewrite take_group by done.
  destruct Hsep as [-> | ->];
    cbn [list_ascii_of_string strip_lit is_char Ascii.eqb Bool.eqb String.length];
    by rewrite (org_match_any _ _ _ res).
Qed.

Lemma find_locator pre u1 u2 proto H sep O P (x : rune) :
  (pre, u1, u2, proto) ∈ locator_heads ->
  in_class ":|/" H -> in_class "/" O -> in_class "/." P ->
  sep = "/"%char \/ sep = ":"%char -> charset_mem AnyChar x = true ->
  exists whole,
    find_from gitregexp 0
      ((rune_of <$> list_ascii_of_string pre)
         ++ (H ++ [sep] :: (O ++ ["/"%char]
               :: (P ++ [x; ["g"%char]; ["i"%char]; ["t"%char]]))))
    = [whole; u1; u2; text H; text O; text P;
       text [x; ["g"%char]; ["i"%char]; ["t"%char]]].
Proof.
  intros Hhead HH HO HP Hsep Hx. rewrite gitregexp_parts.
  unfold locator_heads in Hhead.
  repeat (apply elem_of_cons in Hhead as [[= -> -> -> ->]|Hhead]);
    [| | | | |by apply elem_of_nil in Hhead].
  all: eexists.
  all: match goal with
       | |- context [rune_of <$> ?y] =>
           let z := eval vm_compute in (rune_of <$> y) in
           change (rune_of <$> y) with z
       end; cbn [app].
  all: cbn [find_from rmatch Nat.eqb]; unfold head_re.
  all: cbn [rmatch list_ascii_of_string strip_lit is_char Ascii.eqb Bool.eqb String.length].
  all: erewrite tail_match_any; [|done..|reflexivity].
  all: reflexivity.
Qed.
Lemma is_char_cons_ne a c l : c <> a -> is_char a (c :: l) = false.
Proof.
  intros Hne. destruct l; [|done]. cbn. by apply Ascii.eqb_neq.
Qed.

Lemma runes_l_locator_any (host org repo : string) sep x :
  ascii_byte sep = true -> ascii_byte x = true ->
  runes_l (list_ascii_of_string
             (host +:+ String sep (org +:+ "/" +:+ repo +:+ String x "git")))
  = runes_l (list_ascii_of_string host)
      ++ [sep] :: (runes_l (list_ascii_of_string org)
      ++ ["/"%char] :: (runes_l (list_ascii_of_string repo)
      ++ [[x]; ["g"%char]; ["i"%char]; ["t"%char]])).
Proof.
  intros Hsep Hx. rewrite list_ascii_of_string_app. cbn [list_ascii_of_string].
  rewrite (runes_l_app_ascii _ _ _ _ (Nat.le_refl _)) by done.
  rewrite list_ascii_of_string_app.
  change (list_ascii_of_string ("/" +:+ repo +:+ String x "git"))
    with ("/"%char :: list_ascii_of_string (repo +:+ String x "git")).
  rewrite (runes_l_app_ascii _ _ _ _ (Nat.le_refl _)) by done.
  rewrite list_ascii_of_string_app.
  change (list_ascii_of_string (String x "git"))
    with (x :: ["g"%char; "i"%char; "t"%char]).
  by rewrite (runes_l_app_ascii _ _ _ _ (Nat.le_refl _)) by done.
Qed.

Lemma runes_l_head pre u1 u2 proto rest :
  (pre, u1, u2, proto) ∈ locator_heads ->
  runes_l (list_ascii_of_string (pre +:+ rest))
  = (rune_of <$> list_ascii_of_string pre)
      ++ runes_l (list_ascii_of_string rest).
Proof.
  intros Hhead. unfold locator_heads in Hhead.
  repeat (apply elem_of_cons in Hhead as [[= -> -> -> ->]|Hhead]);
    [| | | | |by apply elem_of_nil in Hhead].
  all: match goal with
       | |- context [rune_of <$> ?y] =>
           let z := eval vm_compute in (rune_of <$> y) in
           change (rune_of <$> y) with z
       end; cbn [app].
  all: match goal with
       | |- runes_l (list_ascii_of_string (?p +:+ ?r)) = _ =>
           let y := eval vm_compute in (list_ascii_of_string p) in
           change (list_ascii_of_string (p +:+ r))
             with (y ++ list_ascii_of_string r)
       end; cbn [app].
  all: by rewrite !runes_l_ascii by done.
Qed.

(** X15: the canonical form of every source of the grammar: one of the
    five heads, a host, a slash or a colon, an organisation, a slash, a
    repository, and any ASCII character but the line feed before [git].
    The protocol is the one of the head ([ssh] for [git@], which stays
    before the host), the separator becomes a slash, and the character
    before [git] is kept as it is. *)
Theorem X15_locator_forms pre u1 u2 proto host org repo sep x :
  (pre, u1, u2, proto) ∈ locator_heads ->
  part ":|/" host = true -> part "/" org = true -> part "/." repo = true ->
  sep = "/"%char \/ sep = ":"%char ->
  any_char x = true ->
  normalizeGitUri
    (pre +:+ host +:+ String sep (org +:+ "/" +:+ repo +:+ String x "git"))
  = (proto +:+ "://" +:+ u2 +:+ host +:+ "/" +:+ org +:+ "/" +:+ repo
       +:+ String x "git", true).
Proof.
  intros Hhead Hhost%part_in_class Horg%part_in_class Hrepo%part_in_class
    Hsep [Hx Hnl]%andb_prop.
  unfold normalizeGitUri, FindStringSubmatch. rewrite runes_runes_l.
  rewrite (runes_l_head _ _ _ _ _ Hhead).
  rewrite runes_l_locator_any by (done || by destruct Hsep as [-> | ->]).
  destruct (find_locator pre u1 u2 proto _ sep _ _ [x] Hhead Hhost Horg Hrepo Hsep)
    as [whole Hfind]; [exact Hnl|].
  unfold rune in *. rewrite Hfind.
  rewrite !text_runes_l.
  unfold locator_heads in Hhead.
  repeat (apply elem_of_cons in Hhead as [[= -> -> -> ->]|Hhead]);
    [| | | | |by apply elem_of_nil in Hhead]; reflexivity.
Qed.

Lemma first_rune_ne a c t :
  c <> a ->
  exists r rs, runes_l (c :: t) = r :: rs /\ is_char a r = false.
Proof.
  intros Hne. rewrite runes_l_cons. eexists _, _. split; [done|].
  pose proof (rune_width_bounds c t).
  destruct (rune_width c t) as [|w]; [lia|]. cbn [take].
  by apply is_char_cons_ne.
Qed.

(** X16: the empty source and every source whose first byte is none of
    [h], [g] and [s] are local and come back as they are. *)
Theorem X16_first_byte_local (s : string) :
  match s with
  | String c _ => c <> "h"%char /\ c <> "g"%char /\ c <> "s"%char
  | EmptyString => True
  end ->
  normalizeGitUri s = (s, false).
Proof.
  destruct s as [|c s]; [done|]. intros (Hh & Hg & Hs).
  unfold normalizeGitUri, FindStringSubmatch. rewrite runes_runes_l.
  cbn [list_ascii_of_string].
  rewrite runes_l_cons. pose proof (rune_width_bounds c (list_ascii_of_string s)).
  destruct (rune_width c (list_ascii_of_string s)) as [|w] eqn:Hw; [lia|].
  cbn [take].
  cbn [find_from gitregexp rmatch Nat.eqb list_ascii_of_string strip_lit].
  rewrite !(is_char_cons_ne _ c) by done.
  by rewrite find_from_later.
Qed.
Lemma is_char_rune_of c r : is_char c r = true <-> r = rune_of c.
Proof.
  unfold rune_of. destruct r as [|b [|b' r]]; cbn; try by split.
  rewrite Ascii.eqb_eq. split; [by intros ->|by intros [= ->]].
Qed.

Lemma strip_lit_spec l : forall s t,
  strip_lit l s = Some t <-> s = (rune_of <$> l) ++ t.
Proof.
  induction l as [|c l IH]; intros s t; cbn [strip_lit fmap list_fmap app].
  - split; [by intros [= ->]|by intros ->].
  - destruct s as [|r s]; [by split|].
    destruct (is_char c r) eqn:Hc.
    + apply is_char_rune_of in Hc as ->. rewrite IH.
      split; [by intros ->|by intros [= ->]].
    + split; [done|]. intros [= -> _]. 
      by rewrite (proj2 (is_char_rune_of c (rune_of c)) eq_refl) in Hc.
Qed.

Lemma plus_match_spec c k K caps : accepts k K ->
  forall s pos,
    is_Some (plus_match c pos s caps k) <->
    exists l rest, s = l ++ rest /\ l <> []
                   /\ Forall (fun x => charset_mem c x = true) l
                   /\ K (pos + length l)%nat rest.
Proof.
  intros Hk. induction s as [|r s IH]; intros pos; cbn [plus_match].
  - split; [by intros [? ?]|]. by intros ([|? ?] & ? & ? & ? & _).
  - destruct (charset_mem c r) eqn:Hr.
    + split.
      * intros Hsome.
        destruct (plus_match c (S pos) s caps k) as [res|] eqn:Hin.
        -- destruct (proj1 (IH (S pos))) as (l & rest & -> & _ & Hall & HK);
             [by rewrite Hin|].
           exists (r :: l), rest. repeat split; [done|by constructor|].
           by replace (pos + length (r :: l))%nat with (S pos + length l)%nat
             by (cbn; lia).
        -- exists [r], s. repeat split; [done|by constructor|].
           apply Hk in Hsome. by rewrite Nat.add_1_r.
      * intros (l & rest & Hs & Hne & Hall & HK).
        destruct l as [|x l]; [done|]. injection Hs as <- ->.
        destruct (plus_match c (S pos) (l ++ rest) caps k) as [res|] eqn:Hin;
          [done|].
        destruct l as [|y l].
        -- apply Hk. by rewrite Nat.add_1_r in HK.
        -- exfalso. assert (is_Some (plus_match c (S pos) ((y :: l) ++ rest) caps k))
             as [? Hcontra]; [|congruence].
           apply IH. exists (y :: l), rest.
           apply Forall_cons in Hall as [_ Hall]. repeat split; [done|done|].
           by replace (S pos + length (y :: l))%nat
             with (pos + length (r :: y :: l))%nat by (cbn; lia).
    + split; [by intros [? ?]|].
      intros (l & rest & Hs & Hne & Hall & _).
      destruct l as [|x l]; [done|]. injection Hs as <- ->.
      apply Forall_cons in Hall as [Hx _]. congruence.
Qed.

Lemma length_list_ascii_of_string s :
  length (list_ascii_of_string s) = String.length s.
Proof. induction s as [|c s IH]; [done|]. cbn. by rewrite IH. Qed.

(** The search finds a match exactly when the text is in the language of
    the pattern. *)
Lemma rmatch_spec r : forall k K,
  accepts k K ->
  forall pos s caps,
    is_Some (rmatch r pos s caps k) <->
    exists l rest, s = l ++ rest /\ denot r pos l rest
                   /\ K (pos + length l)%nat rest.
Proof.
  induction r as [| |lit|c|c|r1 IH1|r1 IH1 r2 IH2|r1 IH1 r2 IH2|i r1 IH1];
    intros k K Hk pos s caps; cbn [rmatch denot]; unfold accepts in Hk.
  - destruct (Nat.eqb_spec pos 0) as [->|Hpos].
    + rewrite Hk. split.
      * intros HK. exists [], s. by rewrite Nat.add_0_r.
      * intros (l & rest & -> & [-> _] & HK). by rewrite Nat.add_0_r in HK.
    + split; [by intros [? ?]|]. by intros (l & rest & _ & [_ ?] & _).
  - destruct s as [|x s].
    + rewrite Hk. split.
      * intros HK. exists [], []. by rewrite Nat.add_0_r.
      * intros (l & rest & _ & [-> ->] & HK). by rewrite Nat.add_0_r in HK.
    + split; [by intros [? ?]|]. by intros (l & rest & Hs & [-> ->] & _).
  - destruct (strip_lit _ s) as [t|] eqn:Hs.
    + apply strip_lit_spec in Hs as ->. rewrite Hk. split.
      * intros HK. eexists _, t. split; [done|]. split; [done|].
        by rewrite length_fmap, length_list_ascii_of_string.
      * intros (l & rest & Hs & -> & HK).
        apply app_inv_head in Hs as ->.
        by rewrite length_fmap, length_list_ascii_of_string in HK.
    + split; [by intros [? ?]|]. intros (l & rest & -> & -> & _).
      by rewrite (proj2 (strip_lit_spec _ _ rest) eq_refl) in Hs.
  - destruct s as [|x s].
    + split; [by intros [? ?]|]. by intros (l & rest & Hs & (y & -> & _) & _).
    + destruct (charset_mem c x) eqn:Hx.
      * rewrite Hk. split.
        -- intros HK. exists [x], s. rewrite Nat.add_1_r. eauto.
        -- intros (l & rest & Hs & (y & -> & _) & HK).
           injection Hs as -> ->. by rewrite Nat.add_1_r in HK.
      * split; [by intros [? ?]|].
        intros (l & rest & Hs & (y & -> & Hy) & _).
        injection Hs as -> ->. congruence.
  - rewrite (plus_match_spec c k K caps Hk).
    split; [intros (l & rest & ? & ? & ? & ?)|intros (l & rest & ? & [? ?] & ?)];
      exists l, rest; auto.
  - destruct (rmatch r1 pos s caps k) as [res|] eqn:H1.
    + split; [|done]. intros _.
      destruct (proj1 (IH1 k K Hk pos s caps)) as (l & rest & ? & ? & ?);
        [by rewrite H1|]. exists l, rest. auto.
    + rewrite Hk. split.
      * intros HK. exists [], s. rewrite Nat.add_0_r. auto.
      * intros (l & rest & -> & [Hd| ->] & HK).
        -- assert (is_Some (rmatch r1 pos (l ++ rest) caps k)) as [? ?];
             [|congruence]. apply (IH1 k K Hk). eauto.
        -- by rewrite Nat.add_0_r in HK.
  - destruct (rmatch r1 pos s caps k) as [res|] eqn:H1.
    + split; [|done]. intros _.
      destruct (proj1 (IH1 k K Hk pos s caps)) as (l & rest & ? & ? & ?);
        [by rewrite H1|]. exists l, rest. auto.
    + rewrite (IH2 k K Hk). split.
      * intros (l & rest & ? & ? & ?). exists l, rest. auto.
      * intros (l & rest & -> & [Hd|Hd] & HK); [|eauto].
        assert (is_Some (rmatch r1 pos (l ++ rest) caps k)) as [? ?];
          [|congruence]. apply (IH1 k K Hk). eauto.
  - rewrite (IH1 _ (fun pos' s' =>
               exists l2 rest, s' = l2 ++ rest /\ denot r2 pos' l2 rest
                               /\ K (pos' + length l2)%nat rest)).
    + split.
      * intros (l1 & rest1 & -> & Hd1 & l2 & rest & -> & Hd2 & HK).
        exists (l1 ++ l2), rest. rewrite <- app_assoc. split; [done|].
        split; [by exists l1, l2|]. by rewrite length_app, Nat.add_assoc.
      * intros (l & rest & -> & (l1 & l2 & -> & Hd1 & Hd2) & HK).
        exists l1, (l2 ++ rest). rewrite <- app_assoc. split; [done|].
        split; [done|]. exists l2, rest. split; [done|]. split; [done|].
        by rewrite length_app, Nat.add_assoc in HK.
    + intros pos' s' caps'. apply (IH2 k K Hk).
  - apply IH1. intros pos' s' caps'. apply Hk.
Qed.
Lemma find_from_some rs :
  find_from gitregexp 0 rs <> [] ->
  exists l rest, rs = l ++ rest /\ denot gitregexp 0 l rest.
Proof.
  intros Hfound.
  assert (is_Some (rmatch gitregexp 0 rs
                     (replicate (S (groups gitregexp)) "")
                     (fun pos' _ caps =>
                        Some (<[0%nat := text (take (pos' - 0) rs)]> caps))))
    as Hsome.
  { destruct rs as [|r rs]; cbn [find_from] in Hfound.
    - destruct (rmatch gitregexp _ _ _ _); [eauto|done].
    - destruct (rmatch gitregexp _ _ _ _); [eauto|].
      by rewrite find_from_later in Hfound. }
  apply (rmatch_spec gitregexp _ (fun _ _ => True)) in Hsome.
  - destruct Hsome as (l & rest & ? & ? & _). eauto.
  - intros pos s caps. split; eauto.
Qed.

Lemma denot_gitregexp l rest :
  denot gitregexp 0 l rest -> rest = [] /\ remote_runes l.
Proof.
  cbn [denot gitregexp].
  intros (l1 & l2 & -> & [-> _] & l3 & l4 & -> & Hhead
          & l5 & l6 & -> & HH & l7 & l8 & -> & Hsep
          & l9 & l10 & -> & HO & l11 & l12 & -> & ->
          & l13 & l14 & -> & HP & l15 & l16 & ->
          & (l17 & l18 & -> & (x & -> & Hx) & ->) & [-> ->]).
  split; [done|].
  assert (exists pre u1 u2 proto,
            (pre, u1, u2, proto) ∈ locator_heads
            /\ l3 = rune_of <$> list_ascii_of_string pre)
    as (pre & u1 & u2 & proto & Hin & ->).
  { unfold locator_heads.
    destruct Hhead as [(l5' & l6' & -> & Hproto & ->)| ->].
    - destruct Hproto as [(l7' & l8' & -> & -> & [-> | ->])|[-> | ->]].
      + exists "https://", "https", "", "https". split; [apply list_elem_of_In; cbn; auto 10|done].
      + exists "http://", "http", "", "http". split; [apply list_elem_of_In; cbn; auto 10|done].
      + exists "git://", "git", "", "git". split; [apply list_elem_of_In; cbn; auto 10|done].
      + exists "ssh://", "ssh", "", "ssh". split; [apply list_elem_of_In; cbn; auto 10|done].
    - exists "git@", "", "git@", "ssh". split; [apply list_elem_of_In; cbn; auto 10|done]. }
  assert (exists sep, (sep = "/"%char \/ sep = ":"%char) /\ l7 = [[sep]])
    as (sep & Hsep' & ->).
  { destruct Hsep as [-> | ->];
      [exists "/"%char|exists ":"%char]; split; auto. }
  exists pre, u1, u2, proto, l5, sep, l9, l13, x.
  repeat split; try done; try apply HH; try apply HO; try apply HP.
Qed.
Lemma normalizeGitUri_remote_runes s pre u1 u2 proto H sep O P (x : rune) :
  (pre, u1, u2, proto) ∈ locator_heads ->
  in_class ":|/" H -> in_class "/" O -> in_class "/." P ->
  sep = "/"%char \/ sep = ":"%char -> charset_mem AnyChar x = true ->
  runes s = (rune_of <$> list_ascii_of_string pre)
              ++ (H ++ [sep] :: (O ++ ["/"%char]
                    :: (P ++ [x; ["g"%char]; ["i"%char]; ["t"%char]]))) ->
  normalizeGitUri s
  = (proto +:+ "://" +:+ u2 +:+ text H +:+ "/" +:+ text O +:+ "/" +:+ text P
       +:+ text [x; ["g"%char]; ["i"%char]; ["t"%char]], true).
Proof.
  intros Hhead HH HO HP Hsep Hx Hrunes.
  unfold normalizeGitUri, FindStringSubmatch.
  destruct (find_locator pre u1 u2 proto H sep O P x Hhead HH HO HP Hsep Hx)
    as [whole Hfind].
  unfold rune in *. rewrite Hrunes, Hfind.
  unfold locator_heads in Hhead.
  repeat (apply elem_of_cons in Hhead as [[= -> -> -> ->]|Hhead]);
    [| | | | |by apply elem_of_nil in Hhead]; reflexivity.
Qed.

(** A source the pattern matches has the form of a remote locator. *)
Lemma normalizeGitUri_remote_form s :
  (normalizeGitUri s).2 = true -> remote_runes (runes s).
Proof.
  unfold normalizeGitUri, FindStringSubmatch.
  destruct (find_from gitregexp 0 (runes s)) as [|c caps] eqn:Hfind; [done|].
  intros _.
  destruct (find_from_some (runes s)) as (l & rest & Hs & Hd);
    [by rewrite Hfind|].
  apply denot_gitregexp in Hd as [-> Hd]. rewrite app_nil_r in Hs.
  by rewrite Hs.
Qed.

(** X17: a source is taken for remote exactly when its runes spell a
    remote locator: nothing else matches the pattern, and every such
    source does. *)
Theorem X17_remote_iff s :
  (normalizeGitUri s).2 = true <-> remote_runes (runes s).
Proof.
  split; [apply normalizeGitUri_remote_form|].
  intros (pre & u1 & u2 & proto & H & sep & O & P & x
          & Hhead & HH & HO & HP & Hsep & Hx & Hrunes).
  by rewrite (normalizeGitUri_remote_runes s _ _ _ _ _ _ _ _ _
                Hhead HH HO HP Hsep Hx Hrunes).
Qed.

Lemma normalizeGitUri_local s :
  (normalizeGitUri s).2 = false -> normalizeGitUri s = (s, false).
Proof.
  unfold normalizeGitUri. by destruct (Nat.eqb _ 0).
Qed.

(** *** Runes and the bytes they came from *)

Lemma runes_l_nonempty : forall n l,
  (length l <= n)%nat -> Forall (fun r => r <> []) (runes_l l).
Proof.
  induction n as [|n IH]; intros [|b t] Hn; cbn [length] in *; try lia;
    try by constructor.
  rewrite runes_l_cons. pose proof (rune_width_bounds b t) as Hw.
  constructor.
  - by destruct (rune_width b t); [lia|].
  - apply IH. rewrite length_drop. cbn [length]. lia.
Qed.

Lemma prefix_concat_eq {A} : forall (X X' Y Y' : list (list A)),
  X ++ Y = X' ++ Y' -> concat X = concat X' ->
  Forall (fun r => r <> []) (X ++ Y) -> X = X'.
Proof.
  induction X as [|a X IH]; intros [|a' X'] Y Y' Heq Hcat Hne; try done.
  - cbn [app] in Heq. subst Y. cbn [app] in Hne.
    apply Forall_cons in Hne as [Ha' _]. cbn in Hcat.
    by destruct a'.
  - apply Forall_cons in Hne as [Ha _]. cbn in Hcat. by destruct a.
  - injection Heq as -> Heq. cbn [concat] in Hcat.
    apply app_inv_head in Hcat. apply Forall_cons in Hne as [_ Hne].
    f_equal. by eapply IH.
Qed.

(** The runes on either side of an ASCII rune are the runes of their own
    bytes. *)
Lemma runes_l_split l A c B :
  ascii_byte c = true -> runes_l l = A ++ [c] :: B ->
  runes_l (concat A) = A /\ runes_l (concat B) = B.
Proof.
  intros Hc Hl.
  assert (l = concat A ++ c :: concat B) as Hbytes.
  { rewrite <- (concat_runes_l _ l (Nat.le_refl _)), Hl, concat_app. done. }
  pose proof Hl as Hl'. rewrite Hbytes in Hl'.
  rewrite (runes_l_app_ascii _ _ _ _ (Nat.le_refl _)) in Hl' by done.
  assert (runes_l (concat A) = A) as HA.
  { eapply prefix_concat_eq; [exact Hl'| |].
    - apply (concat_runes_l _ _ (Nat.le_refl _)).
    - pose proof (runes_l_nonempty _ l (Nat.le_refl _)) as Hne.
      rewrite Hbytes in Hne.
      by rewrite (runes_l_app_ascii _ _ _ _ (Nat.le_refl _)) in Hne by done. }
  split; [done|]. rewrite HA in Hl'. apply app_inv_head in Hl'.
  by injection Hl'.
Qed.

Lemma runes_l_behind_ascii pre : forall l R,
  forallb ascii_byte pre = true ->
  runes_l l = (rune_of <$> pre) ++ R -> runes_l (concat R) = R.
Proof.
  induction pre as [|c pre IH]; intros l R Hpre Hl.
  - cbn in Hl. rewrite <- Hl.
    by rewrite (concat_runes_l _ _ (Nat.le_refl _)).
  - cbn [forallb] in Hpre. apply andb_prop in Hpre as [Hc Hpre].
    cbn [fmap list_fmap app] in Hl.
    destruct (runes_l_split l [] c _ Hc Hl) as [_ Hrest].
    by apply (IH _ R Hpre) in Hrest.
Qed.
Lemma string_of_list_ascii_app a b :
  string_of_list_ascii (a ++ b)
  = string_of_list_ascii a +:+ string_of_list_ascii b.
Proof.
  induction a as [|c a IH]; [done|]. cbn [app string_of_list_ascii].
  by rewrite IH.
Qed.

Lemma text_app A B : text (A ++ B) = text A +:+ text B.
Proof. unfold text. by rewrite concat_app, string_of_list_ascii_app. Qed.

Lemma text_rune_of s : text (rune_of <$> list_ascii_of_string s) = s.
Proof.
  unfold text. induction s as [|c s IH]; [done|].
  cbn [list_ascii_of_string fmap list_fmap concat rune_of app string_of_list_ascii] in *.
  by rewrite IH.
Qed.

Lemma append_assoc_s a b c : (a +:+ b) +:+ c = a +:+ (b +:+ c).
Proof.
  induction a as [|x a IH]; [done|].
  change (String x a +:+ b) with (String x (a +:+ b)).
  rewrite !append_String. by rewrite IH.
Qed.

Lemma runes_l_ascii_prefix p : forall X,
  forallb ascii_byte p = true ->
  runes_l (p ++ X) = (rune_of <$> p) ++ runes_l X.
Proof.
  induction p as [|c p IH]; intros X Hp; [done|].
  cbn [forallb] in Hp. apply andb_prop in Hp as [Hc Hp].
  cbn [app fmap list_fmap]. rewrite runes_l_ascii by done.
  by rewrite IH.
Qed.

(** The runes of a canonical form built from runes. *)
Lemma runes_canonical (pre : string) (H O PT : list rune) :
  forallb ascii_byte (list_ascii_of_string pre) = true ->
  runes_l (concat H) = H -> runes_l (concat O) = O ->
  runes_l (concat PT) = PT ->
  runes (pre +:+ text H +:+ "/" +:+ text O +:+ "/" +:+ text PT)
  = (rune_of <$> list_ascii_of_string pre)
      ++ (H ++ ["/"%char] :: (O ++ ["/"%char] :: PT)).
Proof.
  intros Hpre HH HO HPT. rewrite runes_runes_l.
  rewrite !list_ascii_of_string_app. unfold text.
  rewrite !list_ascii_of_string_of_list_ascii.
  change (list_ascii_of_string "/") with ["/"%char]. cbn [app].
  rewrite runes_l_ascii_prefix by done.
  rewrite (runes_l_app_ascii _ _ _ _ (Nat.le_refl _)) by done.
  rewrite (runes_l_app_ascii _ _ _ _ (Nat.le_refl _)) by done.
  by rewrite HH, HO, HPT.
Qed.

Lemma in_class_git_at H :
  in_class ":|/" H ->
  in_class ":|/" ((rune_of <$> list_ascii_of_string "git@") ++ H).
Proof.
  intros [HH Hall]. split; [done|].
  apply Forall_app. split; [|done]. by repeat constructor.
Qed.

(** X18: normalising is idempotent: the canonical form of a remote source
    is remote and is its own canonical form, and a local source comes back
    as it is. *)
Theorem X18_normalize_idempotent s :
  normalizeGitUri (normalizeGitUri s).1
  = ((normalizeGitUri s).1, (normalizeGitUri s).2).
Proof.
  destruct (normalizeGitUri s).2 eqn:Hremote.
  - pose proof Hremote as Hform. apply normalizeGitUri_remote_form in Hform
      as (pre & u1 & u2 & proto & H & sep & O & P & x
          & Hhead & HH & HO & HP & Hsep & Hx & Hrunes).
    rewrite (normalizeGitUri_remote_runes s _ _ _ _ _ _ _ _ _
               Hhead HH HO HP Hsep Hx Hrunes). cbn [fst].
    assert (forallb ascii_byte (list_ascii_of_string pre) = true
            /\ forallb ascii_byte (list_ascii_of_string (proto +:+ "://" +:+ u2))
               = true) as [Hpre Hpre'].
    { unfold locator_heads in Hhead.
      repeat (apply elem_of_cons in Hhead as [[= -> -> -> ->]|Hhead]);
        [| | | | |by apply elem_of_nil in Hhead]; by split. }
    rewrite runes_runes_l in Hrunes.
    apply (runes_l_behind_ascii _ _ _ Hpre) in Hrunes.
    assert (ascii_byte sep = true) as Hasep by by destruct Hsep as [-> | ->].
    destruct (runes_l_split _ _ _ _ Hasep Hrunes) as [HsH Hrest].
    destruct (runes_l_split _ O "/"%char _ eq_refl Hrest) as [HsO HsPT].
    set (T := [x; ["g"%char]; ["i"%char]; ["t"%char]]) in *.
    assert (proto +:+ "://" +:+ u2 +:+ text H +:+ "/" +:+ text O +:+ "/"
              +:+ text P +:+ text T
            = (proto +:+ "://" +:+ u2) +:+ text H +:+ "/" +:+ text O +:+ "/"
                +:+ text (P ++ T)) as Hu.
    { by rewrite text_app, !append_assoc_s. }
    assert (exists pre' H',
              (pre', proto, "", proto) ∈ locator_heads
              /\ in_class ":|/" H'
              /\ (rune_of <$> list_ascii_of_string (proto +:+ "://" +:+ u2)) ++ H
                 = (rune_of <$> list_ascii_of_string pre') ++ H'
              /\ text H' = u2 +:+ text H)
      as (pre' & H' & Hhead' & HH' & Hsplit & Htext).
    { unfold locator_heads in *.
      repeat (apply elem_of_cons in Hhead as [[= -> -> -> ->]|Hhead]);
        [| | | | |by apply elem_of_nil in Hhead].
      - exists "http://", H. split; [apply list_elem_of_In; cbn; auto 10|done].
      - exists "https://", H. split; [apply list_elem_of_In; cbn; auto 10|done].
      - exists "git://", H. split; [apply list_elem_of_In; cbn; auto 10|done].
      - exists "ssh://", H. split; [apply list_elem_of_In; cbn; auto 10|done].
      - exists "ssh://", ((rune_of <$> list_ascii_of_string "git@") ++ H).
        split; [apply list_elem_of_In; cbn; auto 10|].
        split; [by apply in_class_git_at|]. split; [done|].
        by rewrite text_app, text_rune_of. }
    rewrite Hu.
    rewrite (normalizeGitUri_remote_runes _ pre' proto "" proto H' "/"%char O P x
               Hhead' HH' HO HP (or_introl eq_refl) Hx).
    + f_equal. rewrite Htext, text_app, !append_assoc_s. reflexivity.
    + rewrite runes_canonical by done.
      unfold rune in *. rewrite app_assoc, Hsplit. by rewrite <- app_assoc.
  - apply normalizeGitUri_local in Hremote as Heq. by rewrite Heq.
Qed.

(** X19: a source that is taken for remote starts with one of the five
    heads and ends in [git]. *)
Theorem X19_remote_shape s :
  (normalizeGitUri s).2 = true ->
  exists pre u1 u2 proto mid,
    (pre, u1, u2, proto) ∈ locator_heads /\ s = pre +:+ mid +:+ "git".
Proof.
  intros (pre & u1 & u2 & proto & H & sep & O & P & x
          & Hhead & _ & _ & _ & _ & _ & Hrunes)%normalizeGitUri_remote_form.
  exists pre, u1, u2, proto,
    (text (H ++ [sep] :: (O ++ ["/"%char] :: (P ++ [x])))).
  split; [done|].
  rewrite <- (text_runes_l s), <- runes_runes_l, Hrunes.
  replace (H ++ [sep] :: (O ++ ["/"%char]
             :: (P ++ [x; ["g"%char]; ["i"%char]; ["t"%char]])))
    with ((H ++ [sep] :: (O ++ ["/"%char] :: (P ++ [x])))
            ++ [["g"%char]; ["i"%char]; ["t"%char]]).
  - by rewrite !text_app, text_rune_of.
  - repeat (rewrite <- app_assoc; cbn [app]). reflexivity.
Qed.
(** ** Opening the source *)

Section Opening.

Context `{GitEngine}.

Lemma openGitRepoRemote_clone gitUri :
  openGitRepoRemote gitUri = cloneInto gitUri.
Proof.
  unfold openGitRepoRemote, cloneInto. destruct ioutil_TempDir; [|done].
  by destruct (git_Clone _ _) as [[repo|e]|].
Qed.

(** X20: a source whose runes spell a remote locator is cloned from its
    canonical form into a fresh temporary directory; the source is not
    looked for on disk.  When the temporary directory cannot be made, that
    error is returned and nothing is cloned. *)
Theorem X20_open_remote_clones s pre u1 u2 proto H' sep O P (x : rune) :
  (pre, u1, u2, proto) ∈ locator_heads ->
  in_class ":|/" H' -> in_class "/" O -> in_class "/." P ->
  sep = "/"%char \/ sep = ":"%char -> charset_mem AnyChar x = true ->
  runes s = (rune_of <$> list_ascii_of_string pre)
              ++ (H' ++ [sep] :: (O ++ ["/"%char]
                    :: (P ++ [x; ["g"%char]; ["i"%char]; ["t"%char]]))) ->
  openGitRepo s
  = cloneInto (proto +:+ "://" +:+ u2 +:+ text H' +:+ "/" +:+ text O +:+ "/"
                 +:+ text P +:+ text [x; ["g"%char]; ["i"%char]; ["t"%char]]).
Proof.
  intros Hhead HH HO HP Hsep Hx Hrunes. unfold openGitRepo.
  rewrite (normalizeGitUri_remote_runes s _ _ _ _ _ _ _ _ _
             Hhead HH HO HP Hsep Hx Hrunes).
  apply openGitRepoRemote_clone.
Qed.

(** X21: a source whose runes do not spell a remote locator is opened on
    disk under the name it was given with; nothing is cloned and no
    temporary directory is made. *)
Theorem X21_open_local s :
  ~ remote_runes (runes s) ->
  openGitRepo s = Returns (git_OpenRepositoryExtended s).
Proof.
  intros Hlocal. unfold openGitRepo.
  destruct (normalizeGitUri s).2 eqn:Hremote.
  - by apply normalizeGitUri_remote_form in Hremote.
  - rewrite (normalizeGitUri_local s Hremote). unfold openGitRepoLocal.
    by destruct (git_OpenRepositoryExtended s).
Qed.

End Opening.

(** ** The further properties at work on the sample repositories *)

Lemma X1_witness :
  prepareGitLoadOptions (<["verbose" := VBool true]> Sample.both)
  = prepareGitLoadOptions Sample.both.
Proof.
  apply X1_unrelated_keys_ignored. unfold option_keys. intros Hin.
  repeat (apply elem_of_cons in Hin as [Hin|Hin]; [discriminate|]).
  by apply elem_of_nil in Hin.
Defined.

Lemma X3_witness :
  prepareGitLoadOptions (<["staged-files" := VString "yes"]> Sample.both)
  = prepareGitLoadOptions (delete "staged-files" Sample.both)
  /\ StagedFiles
       (prepareGitLoadOptions (<["staged-files" := VString "yes"]> Sample.both))
     = false.
Proof.
  split; [|vm_compute; reflexivity].
  apply X3_ill_typed_value_is_no_value. left.
  split; [|reflexivity]. apply list_elem_of_In. cbn. auto.
Defined.

Lemma X4_witness :
  @objectsFromCommit Sample.git Sample.linear_repo true true 2
  = Returns
      (flat_map (@commitObjects Sample.git Sample.linear_repo true true)
         [Sample.c3; Sample.c2], None).
Proof.
  apply (@X4_history_objects Sample.git).
  - vm_compute. reflexivity.
  - right. repeat constructor; eexists; reflexivity.
Defined.

Lemma X6_witness :
  @objectsFromCommit Cases.interrupted Sample.linear_repo true true 0
  = Returns ([], Some "object not found").
Proof.
  apply (@X6_history_walk_error_discards Cases.interrupted
           Sample.linear_repo true true 0 [Sample.c3]).
  - vm_compute. reflexivity.
  - right. repeat constructor. eexists. reflexivity.
Defined.

Lemma X7_witness :
  @objectsFromCommit Sample.git Sample.damaged_repo false true 0
  = Returns ([messageObject Sample.cX; messageObject Sample.c1], None).
Proof.
  apply (@X7_history_messages_only Sample.git Sample.damaged_repo 0
           [Sample.cX; Sample.c1]).
  vm_compute. reflexivity.
Defined.

Lemma X8_witness :
  @objectsFromCommit Sample.git Cases.no_walk_repo true true 0
  = Returns ([], Some "out of memory")
  /\ @objectsFromCommit Sample.git Cases.unborn_repo true true 3
     = Returns ([], Some "reference 'refs/heads/master' not found")
  /\ @objectsFromCommit Sample.git Cases.unborn_repo true true 0
     = Returns ([], Some "reference 'refs/heads/master' not found").
Proof.
  split; [|split].
  - apply (proj1 (@X8_history_setup_errors Sample.git Cases.no_walk_repo
                    true true 0)).
    reflexivity.
  - eapply (proj1 (proj2 (@X8_history_setup_errors Sample.git
                            Cases.unborn_repo true true 3)));
      [reflexivity|lia|vm_compute; reflexivity|reflexivity].
  - eapply (proj2 (proj2 (@X8_history_setup_errors Sample.git
                            Cases.unborn_repo true true 0)));
      [reflexivity|lia|reflexivity].
Defined.

Lemma X9_witness :
  exists objs,
    @objectsFromCommit Sample.git Sample.linear_repo true true 0
    = Returns (objs, None)
    /\ fileObject Sample.c2 "conf/"
         {| te_Name := "key"; te_Id := "k3"; te_Type := ObjectBlob |}
         Sample.blob_k ∈ objs
    /\ messageObject Sample.cX ∉ objs.
Proof.
  eexists. split; [vm_compute; reflexivity|].
  assert (@walkOutcome Sample.git Sample.linear_repo 0
          = Ok ([Sample.c3; Sample.c2; Sample.c1], None)) as Hwalk
    by (vm_compute; reflexivity).
  split.
  - apply (@X9_history_membership Sample.git Sample.linear_repo true true 0
             _ _ _ _ Hwalk); [vm_compute; reflexivity|].
    right. split; [reflexivity|].
    exists Sample.c2, Sample.tree2, "conf/",
      {| te_Name := "key"; te_Id := "k3"; te_Type := ObjectBlob |},
      Sample.blob_k.
    repeat split; apply list_elem_of_In; cbn; auto.
  - intros Hin.
    apply (@X9_history_membership Sample.git Sample.linear_repo true true 0
             _ _ _ _ Hwalk) in Hin; [|vm_compute; reflexivity].
    destruct Hin as [[_ (c & Hc & Heq)]|[_ (c & t & b & e & bl & _ & _ & _ & _ & _ & Heq)]].
    + apply (f_equal Name) in Heq. cbn in Heq.
      repeat (apply elem_of_cons in Hc as [->|Hc]; [discriminate|]).
      by apply elem_of_nil in Hc.
    + apply (f_equal SubType) in Heq. discriminate.
Defined.

Lemma X10_witness :
  @objectsFromStagedFiles Sample.git Cases.partial_repo
  = ([], Some "no such path").
Proof.
  refine (proj1 (@X10_staged_first_error Sample.git Cases.partial_repo
                   Sample.index1
                   [ {| ie_Path := "a.txt"; ie_Id := "a1" |};
                     {| ie_Path := "conf/key"; ie_Id := "k3" |} ]
                   {| ie_Path := "notes"; ie_Id := "b2" |} []
                   eq_refl eq_refl _ _) _ _).
  - repeat constructor; eexists; vm_compute; reflexivity.
  - repeat constructor; intros _; eexists; vm_compute; reflexivity.
  - vm_compute. reflexivity.
Defined.

Lemma X11_witness :
  @objectsFromStagedFiles Sample.git Cases.clean_repo = ([], None).
Proof.
  apply (@X11_staged_all_current Sample.git Cases.clean_repo Sample.index1);
    [reflexivity|].
  repeat constructor; vm_compute; reflexivity.
Defined.

Lemma X12_witness :
  @LoadObjects Sample.git "/home/user/widget" Sample.both_and_staged
  = Returns
      (flat_map (@commitObjects Sample.git Sample.linear_repo true true)
         [Sample.c3; Sample.c2; Sample.c1]
       ++ [stagedObject "conf/key" Sample.blob_k;
           stagedObject "notes" Sample.blob_b], None).
Proof.
  assert (@stagedObjects Sample.git Sample.linear_repo Sample.index1
          = [stagedObject "conf/key" Sample.blob_k;
             stagedObject "notes" Sample.blob_b]) as <-
    by (vm_compute; reflexivity).
  apply (@X12_load_all Sample.git "/home/user/widget" Sample.both_and_staged
           Sample.linear_repo [Sample.c3; Sample.c2; Sample.c1] Sample.index1);
    try (vm_compute; reflexivity).
  - repeat constructor; eexists; reflexivity.
  - repeat constructor; eexists; vm_compute; reflexivity.
  - repeat constructor; intros _; eexists; vm_compute; reflexivity.
Defined.

Lemma X14_witness :
  exists objs,
    @LoadObjects Sample.git "/home/user/widget" Sample.both_and_staged
    = Returns (objs, None)
    /\ length objs = 9%nat /\ Forall well_typed objs.
Proof.
  eexists. split; [vm_compute; reflexivity|]. split; [reflexivity|].
  apply (@X14_load_well_typed Sample.git "/home/user/widget"
           Sample.both_and_staged _ None).
  vm_compute. reflexivity.
Defined.

Lemma X15_witness :
  normalizeGitUri "git@example.org:acme/widget-git"
  = ("ssh://git@example.org/acme/widget-git", true).
Proof.
  apply (X15_locator_forms "git@" "" "git@" "ssh" "example.org" "acme"
           "widget" ":" "-"); try reflexivity.
  - apply list_elem_of_In. cbn. auto 10.
  - by right.
Defined.

Lemma X16_witness :
  normalizeGitUri "./widget.git" = ("./widget.git", false).
Proof. apply X16_first_byte_local. by repeat split. Defined.

Lemma X19_witness :
  exists pre u1 u2 proto mid,
    (pre, u1, u2, proto) ∈ locator_heads
    /\ "https://github.com/acme/widget.git" = pre +:+ mid +:+ "git".
Proof.
  apply (X19_remote_shape "https://github.com/acme/widget.git").
  vm_compute. reflexivity.
Defined.

Lemma X20_witness :
  @openGitRepo Sample.git "git@github.com:acme/widget.git"
  = @cloneInto Sample.git "ssh://git@github.com/acme/widget.git"
  /\ @cloneInto Sample.git "ssh://git@github.com/acme/widget.git"
     = Returns (Ok Sample.linear_repo).
Proof.
  split; [|vm_compute; reflexivity].
  assert (in_class ":|/" (rune_of <$> list_ascii_of_string "github.com"))
    as Hhost by (split; [by vm_compute|]; vm_compute; repeat constructor).
  assert (in_class "/" (rune_of <$> list_ascii_of_string "acme"))
    as Horg by (split; [by vm_compute|]; vm_compute; repeat constructor).
  assert (in_class "/." (rune_of <$> list_ascii_of_string "widget"))
    as Hrepo by (split; [by vm_compute|]; vm_compute; repeat constructor).
  assert (("git@", "", "git@", "ssh") ∈ locator_heads) as Hhead
    by (apply list_elem_of_In; cbn; auto 10).
  assert (runes "git@github.com:acme/widget.git"
          = (rune_of <$> list_ascii_of_string "git@")
              ++ ((rune_of <$> list_ascii_of_string "github.com")
                    ++ [":"%char]
                    :: ((rune_of <$> list_ascii_of_string "acme")
                          ++ ["/"%char]
                          :: ((rune_of <$> list_ascii_of_string "widget")
                                ++ [["."%char]; ["g"%char]; ["i"%char];
                                    ["t"%char]])))) as Hrunes
    by (vm_compute; reflexivity).
  etransitivity;
    [exact (@X20_open_remote_clones Sample.git _ _ _ _ _ _ _ _ _ ["."%char]
              Hhead Hhost Horg Hrepo (or_intror eq_refl) eq_refl Hrunes)|].
  apply (f_equal (@cloneInto Sample.git)). vm_compute. reflexivity.
Defined.

Lemma X21_witness :
  @openGitRepo Sample.git "/home/user/widget" = Returns (Ok Sample.linear_repo).
Proof.
  assert (@git_OpenRepositoryExtended Sample.git "/home/user/widget"
          = Ok Sample.linear_repo) as <- by (vm_compute; reflexivity).
  apply (@X21_open_local Sample.git).
  intros (pre & u1 & u2 & proto & H & sep & O & P & x
          & Hhead & HH & HO & HP & Hsep & Hx & Hrunes).
  pose proof (normalizeGitUri_remote_runes _ _ _ _ _ _ _ _ _ _
                Hhead HH HO HP Hsep Hx Hrunes) as Hremote.
  apply (f_equal snd) in Hremote. vm_compute in Hremote. discriminate.
Defined.
